(** * GrafosFinal: the graph builder and the BFS path finder of [app_bfs.py]

    A shallow embedding of the two core functions of the application,
    [parsear_entrada_a_grafo] and [bfs_grados_de_separacion], together with
    the properties their specification states about them.

    Modelling choices.
    - A Python [str] is a [string]; each character stands for one code point
      below 256, so the character classes of [str.strip] and of the regular
      expression class [\w] are the Unicode ones restricted to that range.
    - The adjacency [dict] is a [gmap string (list string)]: the neighbour
      lists keep their insertion order, the order of the keys themselves is
      never observed by the two functions.
    - The [deque] is a list (pop at the head, append at the tail) and the
      visited [set] is a [gset string].
    - A subscript [grafo[k]] raises [KeyError] on a missing key: it is an
      [option], and the builder runs in the option monad.
    - The [while] loop of the search is a fixpoint on a step budget; the
      budget the search is run with is computed from the graph and proved
      to be enough. *)

From stdpp Require Import gmap strings list fin_maps fin_sets sorting.
From Stdlib Require Import Ascii NArith Lia.

Set Warnings "-clear-no-such-hyp".

Local Open Scope N_scope.

(** ** Character classes *)

(** [str.isspace] on the code points below 256. *)
Definition es_espacio (c : ascii) : bool :=
  let n := N_of_ascii c in
  (9 <=? n) && (n <=? 13) || (28 <=? n) && (n <=? 32)
  || (n =? 133) || (n =? 160).

(** The class [\w] of a [str] pattern: alphanumeric or underscore. *)
Definition es_palabra (c : ascii) : bool :=
  let n := N_of_ascii c in
  (48 <=? n) && (n <=? 57) || (65 <=? n) && (n <=? 90)
  || (97 <=? n) && (n <=? 122) || (n =? 95)
  || (n =? 170) || (n =? 178) || (n =? 179) || (n =? 181)
  || (n =? 185) || (n =? 186) || (188 <=? n) && (n <=? 190)
  || (192 <=? n) && (n <=? 214) || (216 <=? n) && (n <=? 246)
  || (248 <=? n) && (n <=? 255).

Definition es_salto (c : ascii) : bool := N_of_ascii c =? 10.

Local Close Scope N_scope.

(** ** The string methods the builder calls *)

Fixpoint str_lstrip (s : string) : string :=
  match s with
  | EmptyString => EmptyString
  | String c r => if es_espacio c then str_lstrip r else s
  end.

Fixpoint str_rstrip (s : string) : string :=
  match s with
  | EmptyString => EmptyString
  | String c r =>
      match str_rstrip r with
      | EmptyString => if es_espacio c then EmptyString else String c EmptyString
      | r' => String c r'
      end
  end.

(** [s.strip()] *)
Definition str_strip (s : string) : string := str_rstrip (str_lstrip s).

(** [s.split('\n')]: never empty, [''.split('\n') = ['']]. *)
Fixpoint str_split (s : string) : list string :=
  match s with
  | EmptyString => [EmptyString]
  | String c r =>
      if es_salto c then EmptyString :: str_split r
      else match str_split r with
           | l :: ls => String c l :: ls
           | [] => [String c EmptyString]
           end
  end.

(** [re.findall(r'[\w]+', s)]: a left-to-right scan, [actual] being the run
    of word characters read so far. *)
Fixpoint findall_desde (actual : string) (s : string) : list string :=
  match s with
  | EmptyString =>
      match actual with EmptyString => [] | _ => [actual] end
  | String c r =>
      if es_palabra c then findall_desde (actual +:+ String c EmptyString) r
      else match actual with
           | EmptyString => findall_desde EmptyString r
           | _ => actual :: findall_desde EmptyString r
           end
  end.

Definition re_findall (s : string) : list string := findall_desde EmptyString s.

(** ** The graph builder *)

Abbreviation grafo_t := (gmap string (list string)).

(** [grafo[k]] *)
Definition subscript (grafo : grafo_t) (k : string) : option (list string) :=
  grafo !! k.

(** [if k not in grafo: grafo[k] = []] *)
Definition asegurar_clave (k : string) (grafo : grafo_t) : grafo_t :=
  if decide (k ∈ dom grafo) then grafo else <[k := []]> grafo.

(** [if b not in grafo[a]: grafo[a].append(b)] *)
Definition conectar (a b : string) (grafo : grafo_t) : option grafo_t :=
  vecinos ← subscript grafo a;
  if decide (b ∈ vecinos) then Some grafo
  else Some (<[a := vecinos ++ [b]]> grafo).

(** The body of [if len(nodos) == 2]. *)
Definition agregar_arista (nodo1 nodo2 : string) (grafo : grafo_t)
  : option grafo_t :=
  let grafo := asegurar_clave nodo1 grafo in
  let grafo := asegurar_clave nodo2 grafo in
  grafo ← conectar nodo1 nodo2 grafo;
  conectar nodo2 nodo1 grafo.

(** One turn of [for linea in lineas]. *)
Definition procesar_linea (grafo : grafo_t) (linea : string) : option grafo_t :=
  match re_findall (str_strip linea) with
  | [nodo1; nodo2] => agregar_arista nodo1 nodo2 grafo
  | _ => Some grafo
  end.

Fixpoint procesar_lineas (grafo : grafo_t) (lineas : list string)
  : option grafo_t :=
  match lineas with
  | [] => Some grafo
  | linea :: resto =>
      grafo ← procesar_linea grafo linea;
      procesar_lineas grafo resto
  end.

Definition lineas_de (texto_conexiones : string) : list string :=
  str_split (str_strip texto_conexiones).

Definition parsear_entrada_a_grafo (texto_conexiones : string)
  : option grafo_t :=
  procesar_lineas ∅ (lineas_de texto_conexiones).

(** ** The path finder *)

Definition MSG_NODO_INEXISTENTE : string :=
  "Error: El nodo de inicio o destino no existe en el grafo definido.".

Definition MSG_SIN_CONEXION : string :=
  "No hay conexi" +:+ String "243"%char
    "n posible entre los dos nodos seleccionados.".

(** The returned pair [(ruta, error_msg)]. *)
Abbreviation resultado := (option (list string) * option string)%type.

Abbreviation cola_t := (list (string * list string)).

(** [grafo.get(nodo, [])] *)
Definition vecinos_de (grafo : grafo_t) (nodo : string) : list string :=
  default [] (grafo !! nodo).

(** [for vecino in ...: if vecino not in visitados: ...] *)
Fixpoint expandir (vecinos : list string) (camino_actual : list string)
    (cola : cola_t) (visitados : gset string) : cola_t * gset string :=
  match vecinos with
  | [] => (cola, visitados)
  | vecino :: resto =>
      if decide (vecino ∈ visitados) then
        expandir resto camino_actual cola visitados
      else
        expandir resto camino_actual
          (cola ++ [(vecino, camino_actual ++ [vecino])])
          ({[vecino]} ∪ visitados)
  end.

(** [while cola: ...], [None] when the step budget runs out. *)
Fixpoint bfs_bucle (pasos : nat) (grafo : grafo_t) (destino : string)
    (cola : cola_t) (visitados : gset string) : option resultado :=
  match cola with
  | [] => Some (None, Some MSG_SIN_CONEXION)
  | (nodo_actual, camino_actual) :: cola =>
      if decide (nodo_actual = destino) then Some (Some camino_actual, None)
      else
        match pasos with
        | 0 => None
        | S pasos =>
            let '(cola, visitados) :=
              expandir (vecinos_de grafo nodo_actual) camino_actual
                cola visitados in
            bfs_bucle pasos grafo destino cola visitados
        end
  end.

(** Every node the graph mentions, as a key or as a neighbour. *)
Definition nodos_de (grafo : grafo_t) : gset string :=
  dom grafo ∪ ⋃ (list_to_set <$> (map_to_list grafo).*2).

Definition presupuesto (grafo : grafo_t) : nat := size (nodos_de grafo).

Definition bfs_grados_de_separacion (grafo : grafo_t) (inicio destino : string)
  : option resultado :=
  if decide (inicio ∉ dom grafo ∨ destino ∉ dom grafo) then
    Some (None, Some MSG_NODO_INEXISTENTE)
  else
    bfs_bucle (presupuesto grafo) grafo destino [(inicio, [inicio])] {[inicio]}.

Definition DEFAULT_CONNECTIONS : string := "
A B
B C
C D
D E
E F
A G
G H
H I
I J
J F
C G
".

(** ** Walks of a graph *)

(** [v] is in the neighbour list the search reads for [u]. *)
Definition arista (grafo : grafo_t) (u v : string) : Prop :=
  v ∈ vecinos_de grafo u.

(** [p] is a walk from [s] to [t]: it starts at [s], ends at [t], and each
    node is followed by one of its neighbours. It has [length p - 1] edges. *)
Definition es_camino (grafo : grafo_t) (s t : string) (p : list string) : Prop :=
  p !! 0 = Some s ∧ last p = Some t ∧
  ∀ i u v, p !! i = Some u → p !! S i = Some v → arista grafo u v.

Definition alcanzable (grafo : grafo_t) (s t : string) : Prop :=
  ∃ p, es_camino grafo s t p.

(** [n] is the distance from [s] to [t]: some walk has [n] edges and none
    has fewer. *)
Definition distancia (grafo : grafo_t) (s t : string) (n : nat) : Prop :=
  (∃ p, es_camino grafo s t p ∧ length p = S n) ∧
  ∀ p, es_camino grafo s t p → S n ≤ length p.

(** The walks as the search builds them, one node appended at a time. *)
Inductive camino (grafo : grafo_t) (s : string) : string → list string → Prop :=
  | camino_inicio : camino grafo s s [s]
  | camino_paso u v p :
      camino grafo s u p → arista grafo u v → camino grafo s v (p ++ [v]).

(** ** Node names, tokens and lines *)

(** A node name as the tokenizer produces it: a non-empty run of word
    characters. *)
Fixpoint solo_palabra (s : string) : bool :=
  match s with
  | EmptyString => true
  | String c r => es_palabra c && solo_palabra r
  end.

Definition es_nodo (s : string) : Prop := s ≠ EmptyString ∧ solo_palabra s = true.

(** What the scan does on a separator and at the end of the text. *)
Definition cerrar (actual : string) (resto : list string) : list string :=
  match actual with EmptyString => resto | _ => actual :: resto end.

(** A line names the edge [(x, y)] when it has exactly these two tokens. *)
Definition linea_arista (linea x y : string) : Prop :=
  re_findall linea = [x; y].

(** No line feed in [s]. *)
Fixpoint sin_salto (s : string) : bool :=
  match s with
  | EmptyString => true
  | String c r => negb (es_salto c) && sin_salto r
  end.

(** A line with nothing to strip and no line feed, as the rendering
    writes them. *)
Definition linea_limpia (l : string) : Prop :=
  l ≠ EmptyString ∧ str_lstrip l = l ∧ str_rstrip l = l ∧ sin_salto l = true.

(** The token lists of the lines of [s], the scan of the first line
    starting from the run [actual]. *)
Definition tokens_lineas (actual : string) (s : string) : list (list string) :=
  match str_split s with
  | l :: ls => findall_desde actual l :: (re_findall <$> ls)
  | [] => []
  end.

(** ** Structural invariants of a graph *)

(** Whenever [b] is in the list of [a], [a] is in the list of [b]. *)
Definition simetrico (grafo : grafo_t) : Prop :=
  ∀ a b va, grafo !! a = Some va → b ∈ va →
            ∃ vb, grafo !! b = Some vb ∧ a ∈ vb.

(** Every node in a neighbour list is a key. *)
Definition claves_cerradas (grafo : grafo_t) : Prop :=
  ∀ a b va, grafo !! a = Some va → b ∈ va → b ∈ dom grafo.

(** ** Rendering a graph as text *)

Definition LF : ascii := "010"%char.

(** Modelled from the spec: the edges to render, one pair for every entry
    of every neighbour list. *)
Definition aristas_de (grafo : grafo_t) : list (string * string) :=
  '(k, vecinos) ← map_to_list grafo; (λ v, (k, v)) <$> vecinos.

(** Modelled from the spec: an edge line, "two whitespace-separated
    alphanumeric tokens per line (e.g. A B)". *)
Definition render_linea (a b : string) : string := a +:+ String " " b.

(** Modelled from the spec: the rendering of a graph "back to the same
    textual form" is not in the source. It is taken to be the expected
    edge-line format of the builder: one line per edge, the two names
    separated by a space, the lines joined by line feeds. *)
Definition render_aristas (pares : list (string * string)) : string :=
  String.concat (String LF EmptyString) (uncurry render_linea <$> pares).

(** Modelled from the spec: a graph is rendered with one line per
    neighbour-list entry. *)
Definition render_grafo (grafo : grafo_t) : string :=
  render_aristas (aristas_de grafo).

(** ** The invariant of the search loop *)

Section Invariante.
Context (grafo : grafo_t) (s t : string).

(** [hechos] are the entries already dequeued, in order; the queue is
    [A ++ B], the entries of [A] carrying walks of [n] nodes and those of
    [B] walks of [S n] nodes. *)
Record inv (n : nat) (hechos A B : cola_t) (visitados : gset string) : Prop := {
  inv_inicio : (s, [s]) ∈ hechos ++ A ++ B;
  inv_camino : ∀ v p, (v, p) ∈ hechos ++ A ++ B → camino grafo s v p;
  inv_nodup : NoDup (hechos ++ A ++ B).*1;
  inv_visitados : ∀ x, x ∈ visitados ↔ x ∈ (hechos ++ A ++ B).*1;
  inv_cerrado : ∀ w p x, (w, p) ∈ hechos → arista grafo w x →
    ∃ q, (x, q) ∈ hechos ++ A ++ B ∧ length q ≤ S (length p);
  inv_no_destino : ∀ w p, (w, p) ∈ hechos → w ≠ t;
  inv_nivel_hechos : ∀ w p, (w, p) ∈ hechos → length p ≤ n;
  inv_nivel_A : ∀ w p, (w, p) ∈ A → length p = n;
  inv_nivel_B : ∀ w p, (w, p) ∈ B → length p = S n
}.

(** The invariant on the queue as the loop holds it. *)
Definition inv_cola (hechos cola : cola_t) (visitados : gset string) : Prop :=
  ∃ n A B, cola = A ++ B ∧ (A = [] → B = []) ∧ inv n hechos A B visitados.

(** What the loop returns: a shortest walk, or the message of the
    exhausted queue when there is no walk at all. *)
Definition bfs_post (r : resultado) : Prop :=
  (∃ p, r = (Some p, None) ∧ es_camino grafo s t p ∧
        ∀ q, es_camino grafo s t q → length p ≤ length q) ∨
  (r = (None, Some MSG_SIN_CONEXION) ∧ ¬ alcanzable grafo s t).
End Invariante.

(** ** Sample graphs *)

(** The graph of [DEFAULT_CONNECTIONS], neighbours in insertion order. *)
Definition grafo_escenario : grafo_t :=
  list_to_map
    [("A", ["B"; "G"]); ("B", ["A"; "C"]); ("C", ["B"; "D"; "G"]);
     ("D", ["C"; "E"]); ("E", ["D"; "F"]); ("F", ["E"; "J"]);
     ("G", ["A"; "H"; "C"]); ("H", ["G"; "I"]); ("I", ["H"; "J"]);
     ("J", ["I"; "F"])].

(** Two components, [A - B] and [C - D]. *)
Definition grafo_dos_islas : grafo_t :=
  list_to_map [("A", ["B"]); ("B", ["A"]); ("C", ["D"]); ("D", ["C"])].

(** A mapping that is not closed: [Z] is a neighbour but not a key. *)
Definition grafo_abierto : grafo_t :=
  list_to_map [("A", ["Z"]); ("B", [])].

(** ** The neighbour lists, line by line *)

(** [vs.append(x)] guarded by [x not in vs]. *)
Definition agregar_unico (vs : list string) (x : string) : list string :=
  if decide (x ∈ vs) then vs else vs ++ [x].

(** What a line with the tokens [a b] offers to the list of [x]: [b] when
    [x] is its first token, then [a] when [x] is its second. *)
Definition socios_par (x a b : string) : list string :=
  (if decide (a = x) then [b] else []) ++ (if decide (b = x) then [a] else []).

Definition socios_tokens (x : string) (tokens : list string) : list string :=
  match tokens with
  | [a; b] => socios_par x a b
  | _ => []
  end.

(** The partners of [x] in the order the lines name them. *)
Definition socios (x : string) (lineas : list string) : list string :=
  linea ← lineas; socios_tokens x (re_findall linea).

(** The valid edges of a list of token lists, added in order. *)
Fixpoint agregar_aristas (grafo : grafo_t) (tokens : list (list string))
  : option grafo_t :=
  match tokens with
  | [] => Some grafo
  | [nodo1; nodo2] :: resto =>
      grafo ← agregar_arista nodo1 nodo2 grafo;
      agregar_aristas grafo resto
  | _ :: resto => agregar_aristas grafo resto
  end.

(** The token lists of the lines that name an edge. *)
Definition lineas_validas (texto : string) : list (list string) :=
  filter (λ tokens, length tokens = 2) (re_findall <$> str_split texto).

(** ** Self-loops *)

(** The graph without the entries that name a node in its own list, as a
    line [A A] of the text leaves them. *)
Definition quitar_bucles (grafo : grafo_t) : grafo_t :=
  map_imap (λ k vecinos, Some (filter (λ v, v ≠ k) vecinos)) grafo.

(** ** The caller: selection and search button *)

(** [sorted(list(grafo.keys()))]: the keys in the order of [str], code
    point by code point. *)
Definition nodos_disponibles (grafo : grafo_t) : list string :=
  merge_sort String.le (elements (dom grafo)).

(** The truth value of [inicio] and [destino]: [None] and the empty string
    are false. *)
Definition verdadero (s : option string) : bool :=
  match s with
  | Some (String _ _) => true
  | _ => false
  end.

(** What the button shows: the metric and the route, the message of the
    search, or the request to select two nodes. *)
Inductive vista : Type :=
  | VistaRuta (grados_separacion : nat) (ruta : list string)
  | VistaError (error_msg : option string)
  | VistaSinSeleccion.

(** The body of [if st.sidebar.button(...)]; [if ruta] holds for a list
    that is not empty, and [len(ruta) - 1] is computed only then. *)
Definition buscar_camino (grafo : grafo_t) (inicio destino : option string)
  : option vista :=
  match inicio, destino with
  | Some i, Some d =>
      if verdadero inicio && verdadero destino then
        r ← bfs_grados_de_separacion grafo i d;
        match r with
        | (Some (x :: resto), _) =>
            Some (VistaRuta (length (x :: resto) - 1) (x :: resto))
        | (_, error_msg) => Some (VistaError error_msg)
        end
      else Some VistaSinSeleccion
  | _, _ => Some VistaSinSeleccion
  end.

(** ** The drawing: which edges are highlighted *)

Definition COLOR_RUTA : string := "#FF6347".
Definition COLOR_ARISTA : string := "#CCCCCC".

(** [list(zip(ruta, ruta[1:]))] *)
Definition ruta_edges (ruta : list string) : list (string * string) :=
  zip ruta (drop 1 ruta).

(** [edge_colors], for the edges [G.edges()] lists. *)
Definition edge_colors (ruta : list string) (G_edges : list (string * string))
  : list string :=
  (λ '(u, v), if decide ((u, v) ∈ ruta_edges ruta ∨ (v, u) ∈ ruta_edges ruta)
              then COLOR_RUTA else COLOR_ARISTA)
    <$> G_edges.

(** * Proofs *)

(** ** Walks *)

Section Caminos.
Context (grafo : grafo_t) (s : string).

Lemma camino_no_vacio v p : camino grafo s v p → p ≠ [].
Proof. destruct 1; [done | by destruct p]. Qed.

Lemma camino_es_camino v p : camino grafo s v p → es_camino grafo s v p.
Proof.
  induction 1 as [|u v p Hc (H0 & Hl & Hs) Ha].
  - split_and!; [done..|]. by intros [|i] ?? ?.
  - assert (p ≠ []) as Hp by eauto using camino_no_vacio.
    split_and!.
    + destruct p; [done | exact H0].
    + apply last_snoc.
    + intros i a b Hi HSi.
      apply lookup_lt_Some in HSi as Hlt. rewrite length_app in Hlt. simpl in Hlt.
      rewrite lookup_app_l in Hi by lia.
      destruct (decide (S i < length p)) as [Hin|Hout].
      * rewrite lookup_app_l in HSi by lia. eauto.
      * assert (S i = length p) as HSi' by lia.
        rewrite lookup_app_r in HSi by lia.
        replace (S i - length p) with 0 in HSi by lia. simplify_eq/=.
        rewrite last_lookup in Hl. rewrite <- HSi' in Hl. simpl in Hl.
        by simplify_eq.
Qed.

Lemma es_camino_camino v p : es_camino grafo s v p → camino grafo s v p.
Proof.
  revert v. induction p as [|x q IH] using rev_ind; intros v (H0 & Hl & Hs).
  - done.
  - rewrite last_snoc in Hl. simplify_eq.
    destruct (decide (q = [])) as [->|Hq].
    + simpl in H0. simplify_eq. constructor.
    + destruct (last q) as [u|] eqn:Hu; [|by apply last_None in Hu].
      assert (0 < length q) by (destruct q; [done | simpl; lia]).
      apply camino_paso with u.
      * apply IH. split_and!; [|done|].
        -- by rewrite lookup_app_l in H0.
        -- intros i a b Hi HSi. apply (Hs i).
           ++ rewrite lookup_app_l; [done | by eapply lookup_lt_Some].
           ++ rewrite lookup_app_l; [done | by eapply lookup_lt_Some].
      * rewrite last_lookup in Hu. apply (Hs (pred (length q))).
        -- rewrite lookup_app_l; [done | lia].
        -- rewrite lookup_app_r by lia.
           by replace (S (pred (length q)) - length q) with 0 by lia.
Qed.
End Caminos.

(** ** The inner loop *)

Lemma expandir_spec vecinos camino_actual cola visitados :
  ∃ nuevos,
    expandir vecinos camino_actual cola visitados
      = (cola ++ nuevos, list_to_set nuevos.*1 ∪ visitados) ∧
    NoDup nuevos.*1 ∧
    (∀ x q, (x, q) ∈ nuevos →
       q = camino_actual ++ [x] ∧ x ∈ vecinos ∧ x ∉ visitados) ∧
    (∀ x, x ∈ vecinos → x ∈ visitados ∨ x ∈ nuevos.*1).
Proof.
  revert cola visitados.
  induction vecinos as [|vecino resto IH]; intros cola visitados; simpl.
  - exists []. rewrite app_nil_r. split_and!.
    + f_equal. set_solver.
    + constructor.
    + set_solver.
    + set_solver.
  - case_decide as Hv.
    + destruct (IH cola visitados) as (nuevos & -> & Hnd & Hn & Hvs).
      exists nuevos. split_and!; [done..| |].
      * intros x q Hx. destruct (Hn x q Hx) as (? & ? & ?). set_solver.
      * intros x [->|Hx]%elem_of_cons; auto.
    + destruct (IH (cola ++ [(vecino, camino_actual ++ [vecino])])
                  ({[vecino]} ∪ visitados)) as (nuevos & -> & Hnd & Hn & Hvs).
      exists ((vecino, camino_actual ++ [vecino]) :: nuevos). split_and!.
      * rewrite <- app_assoc. simpl. f_equal. set_solver.
      * simpl. constructor; [|done].
        intros ((x & q) & ? & Hx)%list_elem_of_fmap. simplify_eq/=.
        destruct (Hn _ _ Hx) as (_ & _ & Hno). set_solver.
      * intros x q [?|Hx]%elem_of_cons.
        -- simplify_eq. set_solver.
        -- destruct (Hn x q Hx) as (? & ? & ?). set_solver.
      * intros x [->|Hx]%elem_of_cons; [set_solver|].
        destruct (Hvs x Hx); set_solver.
Qed.

(** The budget: every turn of the outer loop uses up one unit of
    [size (nodos ∖ visitados) + length cola]. *)
Lemma expandir_medida (nodos : gset string) vecinos camino_actual cola visitados :
  (∀ x, x ∈ vecinos → x ∈ nodos) →
  let '(cola', visitados') := expandir vecinos camino_actual cola visitados in
  size (nodos ∖ visitados') + length cola' = size (nodos ∖ visitados) + length cola.
Proof.
  revert cola visitados.
  induction vecinos as [|vecino resto IH]; intros cola visitados Hin; simpl.
  - done.
  - case_decide as Hv.
    + apply IH. set_solver.
    + specialize (IH (cola ++ [(vecino, camino_actual ++ [vecino])])
                     ({[vecino]} ∪ visitados)).
      destruct (expandir resto _ _ _) as [cola' visitados'].
      rewrite IH by set_solver. rewrite length_app. simpl.
      assert (nodos ∖ visitados = {[vecino]} ∪ nodos ∖ ({[vecino]} ∪ visitados))
        as ->.
      { apply set_eq. intros x. rewrite elem_of_union, !elem_of_difference,
          elem_of_union, elem_of_singleton.
        split; [|naive_solver set_solver].
        destruct (decide (x = vecino)); naive_solver. }
      rewrite (size_union (C:=gset string) {[vecino]}
                 (nodos ∖ ({[vecino]} ∪ visitados))) by set_solver.
      rewrite size_singleton. lia.
Qed.

(** ** The invariant of the outer loop *)

Lemma NoDup_fst_unico {A B} (l : list (A * B)) x y1 y2 :
  NoDup l.*1 → (x, y1) ∈ l → (x, y2) ∈ l → y1 = y2.
Proof.
  induction l as [|[a b] l IH]; csimpl; [by intros _ ?%elem_of_nil|].
  intros [Hno Hnd]%NoDup_cons [?|H1]%elem_of_cons [?|H2]%elem_of_cons;
    simplify_eq; auto.
  - destruct Hno. by apply (list_elem_of_fmap_2 fst _ (a, y2)).
  - destruct Hno. by apply (list_elem_of_fmap_2 fst _ (a, y1)).
Qed.

Section Bucle.
Context (grafo : grafo_t) (s t : string).

Lemma inv_inicial : inv grafo s t 1 [] [(s, [s])] [] {[s]}.
Proof.
  split; simpl.
  - set_solver.
  - intros v p [= -> ->]%list_elem_of_singleton. constructor.
  - apply NoDup_singleton.
  - set_solver.
  - set_solver.
  - set_solver.
  - set_solver.
  - by intros w p [= -> ->]%list_elem_of_singleton.
  - set_solver.
Qed.

Lemma inv_subir n hechos B visitados :
  inv grafo s t n hechos [] B visitados → inv grafo s t (S n) hechos B [] visitados.
Proof.
  intros [H1 H2 H3 H4 H5 H6 H7 H8 H9]. simpl in *.
  split; rewrite ?app_nil_r; try done.
  - intros w p Hw. specialize (H7 w p Hw). lia.
  - set_solver.
Qed.

(** Each node has at most one entry. *)
Lemma inv_unico n hechos A B visitados v p q :
  inv grafo s t n hechos A B visitados →
  (v, p) ∈ hechos ++ A ++ B → (v, q) ∈ hechos ++ A ++ B → p = q.
Proof. intros [_ _ Hnd _ _ _ _ _ _]. by apply NoDup_fst_unico. Qed.

(** Every walk from [s] either ends in a node that has an entry no longer
    than the walk, or passes through a node still in the queue whose entry
    is strictly shorter than the walk. *)
Lemma inv_alcance n hechos A B visitados v p :
  inv grafo s t n hechos A B visitados →
  camino grafo s v p →
  (∃ q, (v, q) ∈ hechos ++ A ++ B ∧ length q ≤ length p) ∨
  (∃ x q, (x, q) ∈ A ++ B ∧ length q < length p).
Proof.
  intros Hinv. induction 1 as [|u v p Hc IH Ha].
  - left. exists [s]. split; [apply Hinv | done].
  - rewrite length_app. simpl.
    destruct IH as [(q & [Hq|Hq]%elem_of_app & Hle)|(x & q & Hq & Hlt)].
    + destruct (inv_cerrado _ _ _ _ _ _ _ _ Hinv u q v Hq Ha) as (q' & ? & ?).
      left. exists q'. split; [done | lia].
    + right. exists u, q. split; [done | lia].
    + right. exists x, q. split; [done | lia].
Qed.
Lemma inv_paso n hechos v p A B visitados :
  inv grafo s t n hechos ((v, p) :: A) B visitados → v ≠ t →
  ∃ nuevos,
    expandir (vecinos_de grafo v) p (A ++ B) visitados
      = (A ++ B ++ nuevos, list_to_set nuevos.*1 ∪ visitados) ∧
    inv grafo s t n (hechos ++ [(v, p)]) A (B ++ nuevos)
      (list_to_set nuevos.*1 ∪ visitados).
Proof.
  intros [H1 H2 H3 H4 H5 H6 H7 H8 H9] Hvt.
  destruct (expandir_spec (vecinos_de grafo v) p (A ++ B) visitados)
    as (nuevos & Heq & Hnd & Hn & Hvs).
  exists nuevos. split; [by rewrite Heq, app_assoc|].
  assert ((hechos ++ [(v, p)]) ++ A ++ B ++ nuevos
          = (hechos ++ ((v, p) :: A) ++ B) ++ nuevos) as Htodo.
  { by rewrite <- !app_assoc. }
  assert (length p = n) as Hp by (apply (H8 v); left).
  assert (∀ x q, (x, q) ∈ hechos ++ ((v, p) :: A) ++ B → length q ≤ S n)
    as Hnivel.
  { intros x q [Hq|[Hq|Hq]%elem_of_app]%elem_of_app.
    - apply H7 in Hq. lia.
    - apply H8 in Hq. lia.
    - apply H9 in Hq. lia. }
  split; rewrite ?Htodo.
  - apply elem_of_app. by left.
  - intros x q [Hq|Hq]%elem_of_app; [by apply H2|].
    destruct (Hn x q Hq) as (-> & Hx & _).
    apply camino_paso with v; [|done]. apply H2. set_solver.
  - rewrite fmap_app. apply NoDup_app. split_and!; [done| |done].
    intros x Hx%H4 ((x' & q) & ? & Hq)%list_elem_of_fmap. simplify_eq/=.
    by destruct (Hn _ _ Hq) as (_ & _ & ?).
  - intros x. rewrite fmap_app, elem_of_app, elem_of_union,
      elem_of_list_to_set, H4. tauto.
  - intros w q x [Hw|Hw%list_elem_of_singleton]%elem_of_app Ha.
    + destruct (H5 w q x Hw Ha) as (q' & ? & ?).
      exists q'. split; [|done]. apply elem_of_app. by left.
    + simplify_eq. destruct (Hvs x Ha) as [Hx|Hx].
      * apply H4, list_elem_of_fmap in Hx as ((x' & q') & ? & Hq').
        simplify_eq/=. exists q'. split; [apply elem_of_app; by left|].
        apply Hnivel in Hq'. lia.
      * apply list_elem_of_fmap in Hx as ((x' & q') & ? & Hq').
        simplify_eq/=. exists q'. split; [apply elem_of_app; by right|].
        destruct (Hn _ _ Hq') as (-> & _). rewrite length_app. simpl. lia.
  - intros w q [Hw|Hw%list_elem_of_singleton]%elem_of_app.
    + by eapply H6.
    + by simplify_eq.
  - intros w q [Hw|Hw%list_elem_of_singleton]%elem_of_app.
    + by eapply H7.
    + simplify_eq. lia.
  - intros w q Hw. apply (H8 w). by right.
  - intros w q [Hw|Hw]%elem_of_app; [by eapply H9|].
    destruct (Hn _ _ Hw) as (-> & _). rewrite length_app. simpl. lia.
Qed.


Lemma inv_cola_intro n hechos A B visitados :
  inv grafo s t n hechos A B visitados →
  inv_cola grafo s t hechos (A ++ B) visitados.
Proof.
  intros Hinv. destruct A as [|e A].
  - exists (S n), B, []. rewrite app_nil_r. auto using inv_subir.
  - by exists n, (e :: A), B.
Qed.


Lemma arista_nodos u v : arista grafo u v → v ∈ nodos_de grafo.
Proof.
  unfold arista, vecinos_de, nodos_de. intros Hv.
  destruct (grafo !! u) as [l|] eqn:Hu; simpl in Hv; [|by apply elem_of_nil in Hv].
  apply elem_of_union. right. apply elem_of_union_list.
  exists (list_to_set l). split; [|by apply elem_of_list_to_set].
  apply list_elem_of_fmap_2. apply (list_elem_of_fmap_2' snd _ (u, l)); [|done].
  by apply elem_of_map_to_list.
Qed.

Lemma bfs_bucle_spec pasos hechos cola visitados :
  inv_cola grafo s t hechos cola visitados →
  size (nodos_de grafo ∖ visitados) + length cola ≤ pasos →
  ∃ r, bfs_bucle pasos grafo t cola visitados = Some r ∧ bfs_post grafo s t r.
Proof.
  revert hechos cola visitados.
  induction pasos as [|k IH]; intros hechos cola visitados
    (n & A & B & -> & HAB & Hinv) Hle;
    (destruct A as [|[v p] A]; [rewrite HAB by done; simpl|];
     [|simpl; case_decide as Hvt]).
  1,4: eexists; split; [done|]; right; split; [done|];
    intros [q Hq%es_camino_camino];
    rewrite HAB in Hinv by done;
    destruct (inv_alcance _ _ _ _ _ _ _ Hinv Hq)
      as [(q' & Hin & _)|(x & q' & Hin & _)];
    [rewrite !app_nil_r in Hin; by eapply inv_no_destino
    |by apply elem_of_nil in Hin].
  1,3: subst v; eexists; split; [done|]; left; exists p;
    assert (length p = n) as Hp by (eapply inv_nivel_A; [done | left]);
    split_and!; [done
    |apply camino_es_camino, (inv_camino _ _ _ _ _ _ _ _ Hinv); set_solver
    |];
    intros q Hq%es_camino_camino;
    destruct (inv_alcance _ _ _ _ _ _ _ Hinv Hq)
      as [(q' & Hin & ?)|(x & q' & [Hin|Hin]%elem_of_app & ?)];
    [assert (q' = p) as -> by
       (eapply inv_unico; [done..|set_solver]); lia
    |apply (inv_nivel_A _ _ _ _ _ _ _ _ Hinv) in Hin; lia
    |apply (inv_nivel_B _ _ _ _ _ _ _ _ Hinv) in Hin; lia].
  - simpl in Hle. lia.
  - destruct (inv_paso _ _ _ _ _ _ _ Hinv Hvt) as (nuevos & Heq & Hinv').
    pose proof (expandir_medida (nodos_de grafo) (vecinos_de grafo v) p
                  (A ++ B) visitados) as Hmed.
    rewrite Heq in Hmed |- *.
    apply (IH (hechos ++ [(v, p)])).
    + by eapply inv_cola_intro.
    + rewrite Hmed by (intros x; apply arista_nodos). simpl in Hle. lia.
Qed.
End Bucle.

(** ** The search as a whole *)

Lemma presupuesto_inicial grafo inicio :
  inicio ∈ dom grafo →
  size (nodos_de grafo ∖ {[inicio]}) + length [(inicio, [inicio])]
    ≤ presupuesto grafo.
Proof.
  intros Hin. unfold presupuesto.
  assert ({[inicio]} ⊆ nodos_de grafo) as Hsub.
  { unfold nodos_de. set_solver. }
  rewrite (size_difference (C:=gset string) _ _ Hsub), size_singleton.
  apply (subseteq_size (C:=gset string)) in Hsub.
  rewrite size_singleton in Hsub. simpl. lia.
Qed.

Lemma bfs_sin_claves grafo inicio destino :
  inicio ∉ dom grafo ∨ destino ∉ dom grafo →
  bfs_grados_de_separacion grafo inicio destino
    = Some (None, Some MSG_NODO_INEXISTENTE).
Proof. intros. unfold bfs_grados_de_separacion. by case_decide. Qed.

Lemma bfs_con_claves grafo inicio destino :
  inicio ∈ dom grafo → destino ∈ dom grafo →
  ∃ r, bfs_grados_de_separacion grafo inicio destino = Some r ∧
       bfs_post grafo inicio destino r.
Proof.
  intros Hi Hd. unfold bfs_grados_de_separacion.
  case_decide as Hno; [tauto|].
  apply (bfs_bucle_spec grafo inicio destino _ []).
  - apply (inv_cola_intro _ _ _ 1 [] [(inicio, [inicio])] []), inv_inicial.
  - by apply presupuesto_inicial.
Qed.

Lemma es_camino_no_vacio grafo s t p : es_camino grafo s t p → p ≠ [].
Proof. by intros [? _] ->. Qed.

(** ** Strings: stripping and tokenizing *)


Lemma app_String c s1 s2 : String c s1 +:+ s2 = String c (s1 +:+ s2).
Proof. reflexivity. Qed.

Lemma app_vacio_l s : EmptyString +:+ s = s.
Proof. reflexivity. Qed.

Lemma app_vacio_r s : s +:+ EmptyString = s.
Proof. induction s; [done | by rewrite app_String, IHs]. Qed.

Lemma app_asociativa s1 s2 s3 : (s1 +:+ s2) +:+ s3 = s1 +:+ s2 +:+ s3.
Proof. induction s1; [done | by rewrite !app_String, IHs1]. Qed.

Lemma espacio_no_palabra c : es_espacio c = true → es_palabra c = false.
Proof. by destruct c as [[] [] [] [] [] [] [] []]. Qed.

Lemma salto_es_espacio c : es_salto c = true → es_espacio c = true.
Proof. by destruct c as [[] [] [] [] [] [] [] []]. Qed.


Lemma findall_desde_fin actual : findall_desde actual EmptyString = cerrar actual [].
Proof. reflexivity. Qed.

Lemma findall_desde_palabra actual c r :
  es_palabra c = true →
  findall_desde actual (String c r)
    = findall_desde (actual +:+ String c EmptyString) r.
Proof. simpl. by intros ->. Qed.

Lemma findall_desde_separador actual c r :
  es_palabra c = false →
  findall_desde actual (String c r)
    = cerrar actual (findall_desde EmptyString r).
Proof. simpl. intros ->. by destruct actual. Qed.

Lemma findall_lstrip s :
  findall_desde EmptyString (str_lstrip s) = findall_desde EmptyString s.
Proof.
  induction s as [|c r IH]; simpl; [done|].
  destruct (es_espacio c) eqn:Hc; [|done].
  by rewrite (espacio_no_palabra _ Hc).
Qed.

Lemma findall_rstrip actual s :
  findall_desde actual (str_rstrip s) = findall_desde actual s.
Proof.
  revert actual. induction s as [|c r IH]; intros actual; [done|].
  cbn [str_rstrip]. destruct (str_rstrip r) as [|c' r'] eqn:Hr.
  - destruct (es_palabra c) eqn:Hc.
    + destruct (es_espacio c) eqn:He.
      { apply espacio_no_palabra in He. congruence. }
      rewrite !findall_desde_palabra by done. apply IH.
    + rewrite (findall_desde_separador _ c r) by done. rewrite <- IH.
      destruct (es_espacio c); [by destruct actual|].
      by rewrite findall_desde_separador.
  - destruct (es_palabra c) eqn:Hc.
    + rewrite !(findall_desde_palabra _ c) by done. apply IH.
    + rewrite !(findall_desde_separador _ c) by done. by rewrite IH.
Qed.

Lemma re_findall_strip s : re_findall (str_strip s) = re_findall s.
Proof.
  unfold re_findall, str_strip. by rewrite findall_rstrip, findall_lstrip.
Qed.

(** Every token is a node name. *)
Lemma solo_palabra_app s1 s2 :
  solo_palabra (s1 +:+ s2) = solo_palabra s1 && solo_palabra s2.
Proof.
  induction s1 as [|c r IH]; [done|].
  rewrite app_String. simpl. rewrite IH. by rewrite andb_assoc.
Qed.

Lemma findall_desde_nodos actual s x :
  solo_palabra actual = true →
  x ∈ findall_desde actual s → es_nodo x.
Proof.
  revert actual. induction s as [|c r IH]; intros actual Hact.
  - rewrite findall_desde_fin. destruct actual; simpl.
    + by intros ?%elem_of_nil.
    + by intros ->%list_elem_of_singleton.
  - destruct (es_palabra c) eqn:Hc.
    + rewrite findall_desde_palabra by done. apply IH.
      rewrite solo_palabra_app, Hact. simpl. by rewrite Hc.
    + rewrite findall_desde_separador by done. destruct actual; simpl.
      * by apply IH.
      * intros [->|?]%elem_of_cons; [done|]. by apply (IH EmptyString).
Qed.

Lemma re_findall_nodos s x : x ∈ re_findall s → es_nodo x.
Proof. by apply findall_desde_nodos. Qed.

(** The scan reads a run of word characters as one piece. *)
Lemma findall_desde_app actual w s :
  solo_palabra w = true →
  findall_desde actual (w +:+ s) = findall_desde (actual +:+ w) s.
Proof.
  revert actual. induction w as [|c r IH]; intros actual Hw.
  - by rewrite app_vacio_l, app_vacio_r.
  - simpl in Hw. apply andb_true_iff in Hw as [Hc Hr].
    rewrite app_String, findall_desde_palabra by done. rewrite IH by done.
    by rewrite app_asociativa.
Qed.

Lemma re_findall_par a b c :
  es_nodo a → es_nodo b → es_palabra c = false →
  re_findall (a +:+ String c b) = [a; b].
Proof.
  intros [Ha Ha'] [Hb Hb'] Hc. unfold re_findall.
  rewrite findall_desde_app by done.
  rewrite findall_desde_separador by done. rewrite app_vacio_l.
  replace b with (b +:+ EmptyString) at 1 by apply app_vacio_r.
  rewrite findall_desde_app by done. rewrite app_vacio_l.
  by destruct a, b.
Qed.

(** ** The graph builder *)

Lemma arista_lookup grafo a b :
  arista grafo a b ↔ ∃ va, grafo !! a = Some va ∧ b ∈ va.
Proof.
  unfold arista, vecinos_de. destruct (grafo !! a) as [va|]; simpl.
  - naive_solver.
  - split; [by intros ?%elem_of_nil | by intros (? & ? & ?)].
Qed.

Lemma asegurar_clave_dom k grafo :
  dom (asegurar_clave k grafo) = {[k]} ∪ dom grafo.
Proof.
  unfold asegurar_clave. case_decide; [set_solver|]. by rewrite dom_insert_L.
Qed.

Lemma asegurar_clave_arista k grafo x y :
  arista (asegurar_clave k grafo) x y ↔ arista grafo x y.
Proof.
  unfold asegurar_clave. case_decide as Hk; [done|].
  apply not_elem_of_dom in Hk. unfold arista, vecinos_de.
  destruct (decide (x = k)) as [->|Hx].
  - rewrite lookup_insert_eq, Hk. done.
  - by rewrite lookup_insert_ne.
Qed.

Lemma conectar_spec a b grafo :
  a ∈ dom grafo →
  ∃ grafo', conectar a b grafo = Some grafo' ∧
    dom grafo' = dom grafo ∧
    ∀ x y, arista grafo' x y ↔ arista grafo x y ∨ (x = a ∧ y = b).
Proof.
  intros [va Ha]%elem_of_dom. unfold conectar, subscript. rewrite Ha. simpl.
  case_decide as Hb; eexists; (split; [done|]).
  - split; [done|]. intros x y. split; [by left|].
    intros [?|[-> ->]]; [done|]. apply arista_lookup. eauto.
  - split.
    + rewrite dom_insert_L. apply elem_of_dom_2 in Ha. set_solver.
    + intros x y. unfold arista, vecinos_de.
      destruct (decide (x = a)) as [->|Hx].
      * rewrite lookup_insert_eq, Ha. simpl. rewrite elem_of_app.
        rewrite list_elem_of_singleton. naive_solver.
      * rewrite lookup_insert_ne by done. naive_solver.
Qed.

Lemma agregar_arista_spec nodo1 nodo2 grafo :
  ∃ grafo', agregar_arista nodo1 nodo2 grafo = Some grafo' ∧
    dom grafo' = {[nodo1; nodo2]} ∪ dom grafo ∧
    ∀ x y, arista grafo' x y ↔
           arista grafo x y ∨ (x = nodo1 ∧ y = nodo2) ∨ (x = nodo2 ∧ y = nodo1).
Proof.
  unfold agregar_arista.
  set (g2 := asegurar_clave nodo2 (asegurar_clave nodo1 grafo)).
  assert (dom g2 = {[nodo1; nodo2]} ∪ dom grafo) as Hdom.
  { unfold g2. rewrite !asegurar_clave_dom. set_solver. }
  destruct (conectar_spec nodo1 nodo2 g2) as (g3 & -> & Hd3 & Ha3);
    [set_solver|]. simpl.
  destruct (conectar_spec nodo2 nodo1 g3) as (g4 & -> & Hd4 & Ha4);
    [set_solver|].
  eexists. split; [done|]. split; [congruence|].
  intros x y. rewrite Ha4, Ha3. unfold g2.
  rewrite !asegurar_clave_arista. tauto.
Qed.


Lemma procesar_linea_dos grafo linea x y :
  linea_arista linea x y →
  procesar_linea grafo linea = agregar_arista x y grafo.
Proof. unfold procesar_linea, linea_arista. rewrite re_findall_strip. by intros ->. Qed.

Lemma procesar_linea_otra grafo linea :
  length (re_findall linea) ≠ 2 → procesar_linea grafo linea = Some grafo.
Proof.
  unfold procesar_linea. rewrite re_findall_strip.
  by destruct (re_findall linea) as [|? [|? [|? ?]]].
Qed.

Lemma procesar_linea_spec grafo linea :
  ∃ grafo', procesar_linea grafo linea = Some grafo' ∧
    (∀ x, x ∈ dom grafo' ↔
       x ∈ dom grafo ∨ ∃ y, linea_arista linea x y ∨ linea_arista linea y x) ∧
    (∀ x y, arista grafo' x y ↔
       arista grafo x y ∨ linea_arista linea x y ∨ linea_arista linea y x).
Proof.
  destruct (decide (length (re_findall linea) = 2)) as [Hdos|Hotra].
  - destruct (re_findall linea) as [|a [|b [|? ?]]] eqn:Hl; try done.
    rewrite (procesar_linea_dos _ _ a b) by done.
    destruct (agregar_arista_spec a b grafo) as (g' & -> & Hdom & Har).
    exists g'. split; [done|]. unfold linea_arista. rewrite Hl. split.
    + intros x. rewrite Hdom. set_unfold. naive_solver.
    + intros x y. rewrite Har. naive_solver.
  - rewrite procesar_linea_otra by done. exists grafo. split; [done|].
    assert (∀ x y, ¬ linea_arista linea x y) as Hno.
    { unfold linea_arista. intros x y Hxy. by rewrite Hxy in Hotra. }
    naive_solver.
Qed.

Lemma procesar_lineas_spec lineas : ∀ grafo,
  ∃ grafo', procesar_lineas grafo lineas = Some grafo' ∧
    (∀ x, x ∈ dom grafo' ↔
       x ∈ dom grafo ∨
       ∃ linea y, linea ∈ lineas ∧
                  (linea_arista linea x y ∨ linea_arista linea y x)) ∧
    (∀ x y, arista grafo' x y ↔
       arista grafo x y ∨
       ∃ linea, linea ∈ lineas ∧
                (linea_arista linea x y ∨ linea_arista linea y x)).
Proof.
  induction lineas as [|linea resto IH]; intros grafo; simpl.
  - exists grafo. split; [done|].
    split; intros; (split; [by left|]); intros [?|?]; [done| |done|];
      set_solver.
  - destruct (procesar_linea_spec grafo linea) as (g1 & -> & Hd1 & Ha1). simpl.
    destruct (IH g1) as (g2 & -> & Hd2 & Ha2).
    exists g2. split; [done|]. split.
    + intros x. rewrite Hd2, Hd1. set_unfold. naive_solver.
    + intros x y. rewrite Ha2, Ha1. set_unfold. naive_solver.
Qed.

Lemma arista_vacio x y : ¬ arista ∅ x y.
Proof. unfold arista, vecinos_de. rewrite lookup_empty. apply not_elem_of_nil. Qed.

(** The graph of a text: its keys are the names on the two-token lines, its
    edges are the pairs those lines name, in both directions. *)
Lemma parsear_spec texto :
  ∃ grafo, parsear_entrada_a_grafo texto = Some grafo ∧
    (∀ x, x ∈ dom grafo ↔
       ∃ linea y, linea ∈ lineas_de texto ∧
                  (linea_arista linea x y ∨ linea_arista linea y x)) ∧
    (∀ x y, arista grafo x y ↔
       ∃ linea, linea ∈ lineas_de texto ∧
                (linea_arista linea x y ∨ linea_arista linea y x)).
Proof.
  unfold parsear_entrada_a_grafo.
  destruct (procesar_lineas_spec (lineas_de texto) ∅) as (g & -> & Hd & Ha).
  exists g. split; [done|]. split.
  - intros x. rewrite Hd. set_solver.
  - intros x y. rewrite Ha. pose proof (arista_vacio x y). tauto.
Qed.


Lemma parsear_simetrico texto grafo :
  parsear_entrada_a_grafo texto = Some grafo → simetrico grafo.
Proof.
  destruct (parsear_spec texto) as (g & -> & _ & Ha). intros [= <-].
  intros a b va Hva Hb. apply arista_lookup, Ha.
  assert (arista g a b) as (linea & ? & ?)%Ha by (apply arista_lookup; eauto).
  exists linea. tauto.
Qed.

Lemma parsear_claves_cerradas texto grafo :
  parsear_entrada_a_grafo texto = Some grafo → claves_cerradas grafo.
Proof.
  destruct (parsear_spec texto) as (g & -> & Hd & Ha). intros [= <-].
  intros a b va Hva Hb. apply Hd.
  assert (arista g a b) as (linea & ? & ?)%Ha by (apply arista_lookup; eauto).
  exists linea, a. tauto.
Qed.

(** The names of a parsed graph are tokens. *)
Lemma linea_arista_nodos linea x y :
  linea_arista linea x y → es_nodo x ∧ es_nodo y.
Proof.
  unfold linea_arista. intros Hl.
  split; apply (re_findall_nodos linea); rewrite Hl; set_solver.
Qed.

(** ** Rendering and parsing again *)

Lemma aristas_de_spec grafo x y : (x, y) ∈ aristas_de grafo ↔ arista grafo x y.
Proof.
  unfold aristas_de. rewrite list_elem_of_bind, arista_lookup. split.
  - intros ([k vs] & Hin & Hk). apply elem_of_map_to_list in Hk.
    apply list_elem_of_fmap in Hin as (v & ? & ?). simplify_eq. eauto.
  - intros (va & Hx & Hy). exists (x, va). split.
    + by apply (list_elem_of_fmap_2 (λ v, (x, v))).
    + by apply elem_of_map_to_list.
Qed.


Lemma str_split_sin_salto s : sin_salto s = true → str_split s = [s].
Proof.
  induction s as [|c r IH]; simpl; [done|].
  intros [Hc Hr]%andb_true_iff. apply negb_true_iff in Hc.
  by rewrite Hc, IH.
Qed.

Lemma str_split_app_salto l resto :
  sin_salto l = true →
  str_split (l +:+ String LF resto) = l :: str_split resto.
Proof.
  induction l as [|c r IH]; [done|]. simpl.
  intros [Hc Hr]%andb_true_iff. apply negb_true_iff in Hc.
  rewrite ?app_String. simpl. by rewrite Hc, IH.
Qed.

Lemma str_split_concat lineas :
  lineas ≠ [] → (∀ l, l ∈ lineas → sin_salto l = true) →
  str_split (String.concat (String LF EmptyString) lineas) = lineas.
Proof.
  induction lineas as [|l [|l2 resto] IH]; intros Hne Hl; [done|..].
  - simpl. apply str_split_sin_salto, Hl. set_solver.
  - change (String.concat _ (l :: l2 :: resto))
      with (l +:+ String LF (String.concat (String LF EmptyString) (l2 :: resto))).
    rewrite str_split_app_salto by (apply Hl; set_solver).
    rewrite IH; [done..|]. intros; apply Hl. set_solver.
Qed.

Lemma str_rstrip_palabra s : solo_palabra s = true → str_rstrip s = s.
Proof.
  induction s as [|c r IH]; [done|]. simpl.
  intros [Hc Hr]%andb_true_iff. rewrite IH by done.
  destruct r; [|done].
  destruct (es_espacio c) eqn:He; [|done].
  apply espacio_no_palabra in He. congruence.
Qed.

Lemma str_rstrip_app a b :
  str_rstrip b ≠ EmptyString → str_rstrip (a +:+ b) = a +:+ str_rstrip b.
Proof.
  intros Hb. induction a as [|c r IH]; [done|].
  rewrite !app_String. simpl. rewrite IH.
  destruct (r +:+ str_rstrip b) eqn:Hr; [|done].
  destruct r; [|done]. by rewrite app_vacio_l in Hr.
Qed.


Lemma palabra_sin_salto s : solo_palabra s = true → sin_salto s = true.
Proof.
  induction s as [|c r IH]; [done|]. simpl.
  intros [Hc Hr]%andb_true_iff. rewrite IH by done.
  destruct (es_salto c) eqn:Hs; [|done].
  apply salto_es_espacio, espacio_no_palabra in Hs. congruence.
Qed.

Lemma sin_salto_app s1 s2 :
  sin_salto (s1 +:+ s2) = sin_salto s1 && sin_salto s2.
Proof.
  induction s1 as [|c r IH]; [done|].
  rewrite app_String. simpl. rewrite IH. by rewrite andb_assoc.
Qed.

Lemma render_linea_limpia a b :
  es_nodo a → es_nodo b → linea_limpia (render_linea a b).
Proof.
  intros [Ha Ha'] [Hb Hb']. unfold render_linea. split_and!.
  - by destruct a.
  - destruct a as [|c r]; [done|]. simpl in Ha'.
    apply andb_true_iff in Ha' as [Hc _]. rewrite app_String. simpl.
    destruct (es_espacio c) eqn:He; [|done].
    apply espacio_no_palabra in He. congruence.
  - replace (String " " b) with (String " " EmptyString +:+ b) by done.
    rewrite <- app_asociativa.
    rewrite str_rstrip_app; by rewrite str_rstrip_palabra.
  - rewrite sin_salto_app. simpl. by rewrite !palabra_sin_salto.
Qed.

Lemma str_strip_concat lineas :
  (∀ l, l ∈ lineas → linea_limpia l) →
  str_strip (String.concat (String LF EmptyString) lineas)
    = String.concat (String LF EmptyString) lineas.
Proof.
  intros Hl. unfold str_strip.
  assert (str_lstrip (String.concat (String LF EmptyString) lineas)
          = String.concat (String LF EmptyString) lineas) as ->.
  { destruct lineas as [|l resto]; [done|].
    destruct (Hl l) as (Hne & Hls & _); [set_solver|].
    destruct l as [|c r]; [done|].
    simpl in Hls. destruct (es_espacio c) eqn:He.
    - exfalso. clear -Hls. assert (String.length (str_lstrip r) ≤ String.length r) as Hlen.
      { clear. induction r as [|c r IH]; simpl; [done|].
        destruct (es_espacio c); simpl; lia. }
      rewrite Hls in Hlen. simpl in Hlen. lia.
    - destruct resto; simpl; by rewrite ?app_String, He. }
  induction lineas as [|l [|l2 resto] IH]; [done|..].
  - simpl. apply Hl. set_solver.
  - change (String.concat _ (l :: l2 :: resto))
      with (l +:+ String LF (String.concat (String LF EmptyString) (l2 :: resto))).
    replace (String LF (String.concat (String LF EmptyString) (l2 :: resto)))
      with (String LF EmptyString
              +:+ String.concat (String LF EmptyString) (l2 :: resto)) by done.
    assert (String.concat (String LF EmptyString) (l2 :: resto) ≠ EmptyString).
    { destruct (Hl l2) as (Hne & _); [set_solver|].
      destruct l2; [done|]. by destruct resto. }
    assert (str_rstrip (String.concat (String LF EmptyString) (l2 :: resto))
            = String.concat (String LF EmptyString) (l2 :: resto)) as HC.
    { apply IH. intros; apply Hl; set_solver. }
    assert (str_rstrip (String LF EmptyString
                          +:+ String.concat (String LF EmptyString) (l2 :: resto))
            = String LF EmptyString
                +:+ String.concat (String LF EmptyString) (l2 :: resto)) as HLC.
    { rewrite str_rstrip_app; by rewrite HC. }
    rewrite str_rstrip_app; by rewrite HLC.
Qed.

Lemma re_findall_render_linea a b :
  es_nodo a → es_nodo b → re_findall (render_linea a b) = [a; b].
Proof. intros. by apply re_findall_par. Qed.

(** The two-token lines of a rendering are the pairs rendered. *)
Lemma lineas_render pares x y :
  (∀ a b, (a, b) ∈ pares → es_nodo a ∧ es_nodo b) →
  (∃ linea, linea ∈ lineas_de (render_aristas pares) ∧ linea_arista linea x y)
  ↔ (x, y) ∈ pares.
Proof.
  intros Hpares. unfold lineas_de, render_aristas.
  destruct (decide (pares = [])) as [->|Hpar].
  - split; [|by intros ?%elem_of_nil].
    by intros (linea & ->%list_elem_of_singleton & Hl).
  - assert (∀ l, l ∈ uncurry render_linea <$> pares → linea_limpia l)
      as Hlimpia.
    { intros l ([a b] & -> & Hab)%list_elem_of_fmap.
      destruct (Hpares a b Hab). by apply render_linea_limpia. }
    rewrite str_strip_concat, str_split_concat.
    + split.
      * intros (linea & ([a b] & -> & Hab)%list_elem_of_fmap & Hl).
        destruct (Hpares a b Hab). unfold linea_arista in Hl. simpl in Hl.
        rewrite re_findall_render_linea in Hl by done. by simplify_eq.
      * intros Hxy. destruct (Hpares x y Hxy). exists (render_linea x y). split.
        -- by apply (list_elem_of_fmap_2 (uncurry render_linea) _ (x, y)).
        -- by apply re_findall_render_linea.
    + by intros ?%fmap_nil_inv.
    + intros l Hl. by apply Hlimpia.
    + done.
Qed.

(** Whatever the order of the lines, and whether an undirected edge is
    written once or in both directions, the rendering of the edges of a
    parsed graph parses to a graph with the same keys and edges. *)
Lemma parsear_render_aristas texto grafo pares :
  parsear_entrada_a_grafo texto = Some grafo →
  (∀ x y, (x, y) ∈ pares → arista grafo x y) →
  (∀ x y, arista grafo x y → (x, y) ∈ pares ∨ (y, x) ∈ pares) →
  ∃ grafo',
    parsear_entrada_a_grafo (render_aristas pares) = Some grafo' ∧
    dom grafo' = dom grafo ∧
    ∀ x y, arista grafo' x y ↔ arista grafo x y.
Proof.
  destruct (parsear_spec texto) as (g & -> & Hd & Ha). intros [= <-] Hin Hout.
  destruct (parsear_spec (render_aristas pares)) as (g' & Hg' & Hd' & Ha').
  exists g'. split; [done|].
  assert (∀ a b, arista g a b → arista g b a) as Hsim
    by (intros a b (linea & ? & ?)%Ha; apply Ha; exists linea; tauto).
  assert (∀ a b, (a, b) ∈ pares → es_nodo a ∧ es_nodo b) as Hnodos
    by (intros a b (linea & _ & [Hl|Hl])%Hin%Ha;
        apply linea_arista_nodos in Hl; tauto).
  pose proof (λ x y, lineas_render pares x y Hnodos) as Hr.
  assert (∀ x y, arista g' x y ↔ arista g x y) as Hedges.
  { intros x y. rewrite Ha'. split.
    - intros (linea & Hl & [Hxy|Hyx]); [|apply Hsim]; apply Hin, Hr; eauto.
    - intros [(l & ? & ?)%Hr|(l & ? & ?)%Hr]%Hout; eauto. }
  split; [|done].
  apply set_eq. intros x. rewrite Hd'. split.
  - intros (linea & y & Hl & Hxy).
    assert (arista g x y) as (l & ? & ?)%Ha by (apply Hedges, Ha'; eauto).
    apply Hd. eauto.
  - intros (linea & y & Hl & Hxy)%Hd.
    assert (arista g' x y) as (l & ? & ?)%Ha' by (apply Hedges, Ha; eauto).
    eauto.
Qed.

(** ** Stripping the text does not change its two-token lines *)


Lemma str_split_no_vacio s : str_split s ≠ [].
Proof. destruct s as [|c r]; simpl; [done|]. by destruct (es_salto c), (str_split r). Qed.

Lemma tokens_lineas_no_vacio actual s : tokens_lineas actual s ≠ [].
Proof.
  unfold tokens_lineas. pose proof (str_split_no_vacio s).
  by destruct (str_split s).
Qed.

Lemma tokens_lineas_re_findall s :
  tokens_lineas EmptyString s = re_findall <$> str_split s.
Proof. unfold tokens_lineas. by destruct (str_split s). Qed.

Lemma tokens_lineas_salto actual c r :
  es_salto c = true →
  tokens_lineas actual (String c r)
    = cerrar actual [] :: tokens_lineas EmptyString r.
Proof.
  intros Hc. unfold tokens_lineas at 1. simpl. rewrite Hc.
  by rewrite tokens_lineas_re_findall.
Qed.

Lemma tokens_lineas_palabra actual c r :
  es_palabra c = true →
  tokens_lineas actual (String c r)
    = tokens_lineas (actual +:+ String c EmptyString) r.
Proof.
  intros Hc. unfold tokens_lineas. simpl.
  destruct (es_salto c) eqn:Hs.
  { apply salto_es_espacio, espacio_no_palabra in Hs. congruence. }
  pose proof (str_split_no_vacio r).
  destruct (str_split r); [done|]. by rewrite findall_desde_palabra.
Qed.

Lemma tokens_lineas_separador actual c r :
  es_palabra c = false → es_salto c = false →
  tokens_lineas actual (String c r)
    = match tokens_lineas EmptyString r with
      | t :: ts => cerrar actual t :: ts
      | [] => []
      end.
Proof.
  intros Hc Hs. unfold tokens_lineas. simpl. rewrite Hs.
  pose proof (str_split_no_vacio r).
  destruct (str_split r); [done|]. by rewrite findall_desde_separador.
Qed.

Lemma tokens_lineas_lstrip s :
  ∃ k, tokens_lineas EmptyString s
       = replicate k [] ++ tokens_lineas EmptyString (str_lstrip s).
Proof.
  induction s as [|c r [k IH]]; simpl; [by exists 0|].
  destruct (es_espacio c) eqn:He; [|by exists 0].
  destruct (es_salto c) eqn:Hs.
  - exists (S k). rewrite tokens_lineas_salto by done. by rewrite IH.
  - exists k. rewrite tokens_lineas_separador
      by eauto using espacio_no_palabra.
    pose proof (tokens_lineas_no_vacio EmptyString r).
    rewrite <- IH. by destruct (tokens_lineas EmptyString r).
Qed.

Lemma tokens_lineas_rstrip s : ∀ actual,
  ∃ k, tokens_lineas actual s
       = tokens_lineas actual (str_rstrip s) ++ replicate k [].
Proof.
  induction s as [|c r IH]; intros actual; [by exists 0|].
  cbn [str_rstrip]. destruct (str_rstrip r) as [|c' r'] eqn:Hr.
  - destruct (es_salto c) eqn:Hs.
    { rewrite (salto_es_espacio _ Hs). destruct (IH EmptyString) as [k Hk].
      exists (S k). rewrite tokens_lineas_salto by done. by rewrite Hk. }
    destruct (es_palabra c) eqn:Hc.
    + destruct (es_espacio c) eqn:He.
      { apply espacio_no_palabra in He. congruence. }
      destruct (IH (actual +:+ String c EmptyString)) as [k Hk].
      exists k. by rewrite !(tokens_lineas_palabra _ c).
    + destruct (IH EmptyString) as [k Hk]. exists k.
      rewrite (tokens_lineas_separador _ c r), Hk by done.
      destruct (es_espacio c); [done|].
      by rewrite tokens_lineas_separador.
  - destruct (IH EmptyString) as [k0 Hk0].
    destruct (es_salto c) eqn:Hs.
    { exists k0. rewrite !(tokens_lineas_salto _ c) by done. by rewrite Hk0. }
    destruct (es_palabra c) eqn:Hc.
    + destruct (IH (actual +:+ String c EmptyString)) as [k Hk].
      exists k. by rewrite !(tokens_lineas_palabra _ c).
    + exists k0. rewrite !(tokens_lineas_separador _ c) by done.
      rewrite Hk0.
      pose proof (tokens_lineas_no_vacio EmptyString (String c' r')).
      by destruct (tokens_lineas EmptyString (String c' r')).
Qed.

Lemma tokens_lineas_strip s ts :
  ts ≠ [] →
  ts ∈ tokens_lineas EmptyString (str_strip s) ↔ ts ∈ tokens_lineas EmptyString s.
Proof.
  intros Hts. unfold str_strip.
  destruct (tokens_lineas_lstrip s) as [k1 ->].
  destruct (tokens_lineas_rstrip (str_lstrip s) EmptyString) as [k2 ->].
  rewrite !elem_of_app, !elem_of_replicate. naive_solver.
Qed.

(** The lines the builder iterates over name the same edges as the lines of
    the text itself. *)
Lemma lineas_de_texto texto x y :
  (∃ linea, linea ∈ lineas_de texto ∧ linea_arista linea x y)
  ↔ (∃ linea, linea ∈ str_split texto ∧ linea_arista linea x y).
Proof.
  unfold lineas_de, linea_arista.
  pose proof (tokens_lineas_strip texto [x; y]) as Hs.
  rewrite !tokens_lineas_re_findall, !list_elem_of_fmap in Hs.
  split; intros (l & ? & ?).
  - destruct Hs as [(l' & ? & ?) _]; eauto.
  - destruct Hs as [_ (l' & ? & ?)]; eauto.
Qed.

(** * The properties of the specification *)

(** ** Path finder *)

Lemma es_camino_A_B : es_camino grafo_dos_islas "A" "B" ["A"; "B"].
Proof.
  split_and!; [done..|].
  intros [|[|i]] u v ??; simplify_eq/=.
  unfold arista. apply (bool_decide_unpack _). by vm_compute.
Qed.

(** C1. When source and target are keys and the target is reachable, the
    search returns a walk from source to target whose number of edges is the
    distance between them: no walk between them is shorter. *)
Theorem bfs_camino_mas_corto grafo inicio destino :
  inicio ∈ dom grafo → destino ∈ dom grafo →
  alcanzable grafo inicio destino →
  ∃ ruta,
    bfs_grados_de_separacion grafo inicio destino = Some (Some ruta, None) ∧
    es_camino grafo inicio destino ruta ∧
    distancia grafo inicio destino (length ruta - 1) ∧
    ∀ p, es_camino grafo inicio destino p → length ruta ≤ length p.
Proof.
  intros Hi Hd Halc.
  destruct (bfs_con_claves grafo inicio destino Hi Hd)
    as (r & -> & [(ruta & -> & Hc & Hmin)|[_ Hno]]); [|done].
  exists ruta. split_and!; [done..| |done].
  assert (ruta ≠ []) as Hne by eauto using es_camino_no_vacio.
  assert (S (length ruta - 1) = length ruta) as Hlen
    by (destruct ruta; [done | simpl; lia]).
  split.
  - exists ruta. by rewrite Hlen.
  - intros p Hp. rewrite Hlen. by apply Hmin.
Qed.

Lemma bfs_camino_mas_corto_witness :
  ("A" ∈ dom grafo_dos_islas ∧ "B" ∈ dom grafo_dos_islas ∧
   alcanzable grafo_dos_islas "A" "B") ∧
  ∃ ruta,
    bfs_grados_de_separacion grafo_dos_islas "A" "B" = Some (Some ruta, None) ∧
    es_camino grafo_dos_islas "A" "B" ruta ∧
    distancia grafo_dos_islas "A" "B" (length ruta - 1) ∧
    ∀ p, es_camino grafo_dos_islas "A" "B" p → length ruta ≤ length p.
Proof.
  assert ("A" ∈ dom grafo_dos_islas) as HA
    by (apply (bool_decide_unpack _); by vm_compute).
  assert ("B" ∈ dom grafo_dos_islas) as HB
    by (apply (bool_decide_unpack _); by vm_compute).
  assert (alcanzable grafo_dos_islas "A" "B") as Halc
    by (eexists; apply es_camino_A_B).
  split; [done|]. by apply bfs_camino_mas_corto.
Defined.

(** The scenario text parses to [grafo_escenario]. *)
Lemma parsear_escenario :
  parsear_entrada_a_grafo DEFAULT_CONNECTIONS = Some grafo_escenario.
Proof. by vm_compute. Qed.

Lemma bfs_escenario_A_F :
  bfs_grados_de_separacion grafo_escenario "A" "F"
    = Some (Some ["A"; "B"; "C"; "D"; "E"; "F"], None).
Proof. by vm_compute. Qed.

Example bfs_escenario_A_H :
  bfs_grados_de_separacion grafo_escenario "A" "H"
    = Some (Some ["A"; "G"; "H"], None).
Proof. by vm_compute. Qed.

(** C2, as stated, fails: on the scenario graph the route found from [A] to
    [F] does not have 6 edges. *)
Lemma escenario_A_F_no_seis_aristas :
  ¬ ∃ grafo ruta,
      parsear_entrada_a_grafo DEFAULT_CONNECTIONS = Some grafo ∧
      bfs_grados_de_separacion grafo "A" "F" = Some (Some ruta, None) ∧
      length ruta - 1 = 6.
Proof.
  intros (grafo & ruta & Hg & Hr & Hlen).
  rewrite parsear_escenario in Hg. simplify_eq.
  rewrite bfs_escenario_A_F in Hr. by simplify_eq.
Qed.

(** C2, amended. On the graph built from the scenario text the search from
    [A] to [F] returns [A, B, C, D, E, F], the shortest route it discovers
    first: 6 nodes and 5 edges, and 5 is the distance from [A] to [F]. *)
Theorem escenario_A_F_cinco_aristas :
  ∃ grafo,
    parsear_entrada_a_grafo DEFAULT_CONNECTIONS = Some grafo ∧
    bfs_grados_de_separacion grafo "A" "F"
      = Some (Some ["A"; "B"; "C"; "D"; "E"; "F"], None) ∧
    length ["A"; "B"; "C"; "D"; "E"; "F"] - 1 = 5 ∧
    distancia grafo "A" "F" 5.
Proof.
  exists grafo_escenario.
  split_and!; [apply parsear_escenario | apply bfs_escenario_A_F | done |].
  destruct (bfs_con_claves grafo_escenario "A" "F")
    as (r & Hr & [(ruta & -> & Hc & Hmin)|[-> _]]).
  - apply (bool_decide_unpack _). by vm_compute.
  - apply (bool_decide_unpack _). by vm_compute.
  - rewrite bfs_escenario_A_F in Hr. simplify_eq. split.
    + by exists ["A"; "B"; "C"; "D"; "E"; "F"].
    + apply Hmin.
  - rewrite bfs_escenario_A_F in Hr. by simplify_eq.
Qed.

(** C3. The search from a key to itself returns the one-node walk: the
    first entry dequeued is already the target. *)
Theorem bfs_mismo_nodo grafo a :
  a ∈ dom grafo →
  bfs_grados_de_separacion grafo a a = Some (Some [a], None).
Proof.
  intros Ha. unfold bfs_grados_de_separacion.
  case_decide; [tauto|]. destruct (presupuesto grafo); simpl; by case_decide.
Qed.

Lemma bfs_mismo_nodo_witness :
  "C" ∈ dom grafo_dos_islas ∧
  bfs_grados_de_separacion grafo_dos_islas "C" "C" = Some (Some ["C"], None).
Proof.
  assert ("C" ∈ dom grafo_dos_islas) as HC
    by (apply (bool_decide_unpack _); by vm_compute).
  split; [done|]. by apply bfs_mismo_nodo.
Defined.

(** C4. The search answers with the unknown-node message, before any
    queue is built, exactly when the source or the target is not a key. *)
Theorem bfs_nodo_inexistente grafo inicio destino :
  (inicio ∉ dom grafo ∨ destino ∉ dom grafo) ↔
  bfs_grados_de_separacion grafo inicio destino
    = Some (None, Some MSG_NODO_INEXISTENTE).
Proof.
  split; [apply bfs_sin_claves|].
  intros Hr. destruct (decide (inicio ∈ dom grafo)) as [Hi|]; [|by left].
  destruct (decide (destino ∈ dom grafo)) as [Hd|]; [|by right].
  destruct (bfs_con_claves grafo inicio destino Hi Hd)
    as (r & Hr' & [(ruta & -> & _)|[-> _]]); rewrite Hr in Hr'; by simplify_eq.
Qed.

(** C5. Between two keys, the search runs the queue empty and answers with
    the no-connection message exactly when no walk leads from the source to
    the target. *)
Theorem bfs_sin_conexion grafo inicio destino :
  inicio ∈ dom grafo → destino ∈ dom grafo →
  (bfs_grados_de_separacion grafo inicio destino
     = Some (None, Some MSG_SIN_CONEXION)
   ↔ ¬ alcanzable grafo inicio destino).
Proof.
  intros Hi Hd.
  destruct (bfs_con_claves grafo inicio destino Hi Hd)
    as (r & -> & [(ruta & -> & Hc & _)|[-> Hno]]).
  - split; [done|]. intros []. by exists ruta.
  - done.
Qed.

Lemma bfs_sin_conexion_witness :
  ("A" ∈ dom grafo_dos_islas ∧ "C" ∈ dom grafo_dos_islas) ∧
  bfs_grados_de_separacion grafo_dos_islas "A" "C"
    = Some (None, Some MSG_SIN_CONEXION) ∧
  ¬ alcanzable grafo_dos_islas "A" "C".
Proof.
  assert ("A" ∈ dom grafo_dos_islas) as HA
    by (apply (bool_decide_unpack _); by vm_compute).
  assert ("C" ∈ dom grafo_dos_islas) as HC
    by (apply (bool_decide_unpack _); by vm_compute).
  assert (bfs_grados_de_separacion grafo_dos_islas "A" "C"
          = Some (None, Some MSG_SIN_CONEXION)) as Hr by (by vm_compute).
  split_and!; [done..|].
  by apply (bfs_sin_conexion grafo_dos_islas "A" "C" HA HC).
Defined.

(** C6. Every call returns a pair with exactly one component set: a
    non-empty route and no message, or no route and a message. *)
Theorem bfs_resultado_exclusivo grafo inicio destino :
  ∃ r, bfs_grados_de_separacion grafo inicio destino = Some r ∧
    ((∃ ruta, ruta ≠ [] ∧ r = (Some ruta, None)) ∨
     (∃ mensaje, r = (None, Some mensaje))).
Proof.
  destruct (decide (inicio ∉ dom grafo ∨ destino ∉ dom grafo)) as [Hno|Hsi].
  - rewrite bfs_sin_claves by done. eauto.
  - assert (inicio ∈ dom grafo) as Hi
      by (destruct (decide (inicio ∈ dom grafo)); tauto).
    assert (destino ∈ dom grafo) as Hd
      by (destruct (decide (destino ∈ dom grafo)); tauto).
    destruct (bfs_con_claves grafo inicio destino Hi Hd)
      as (r & -> & [(ruta & -> & Hc & _)|[-> _]]).
    + eexists. split; [done|]. left. exists ruta.
      eauto using es_camino_no_vacio.
    + eauto.
Qed.

(** The lookup of a node that is not a key gives no neighbours, so
    dequeuing such a node only drops it from the queue. *)
Lemma vecinos_de_sin_clave grafo nodo :
  nodo ∉ dom grafo → vecinos_de grafo nodo = [].
Proof. intros Hn%not_elem_of_dom. unfold vecinos_de. by rewrite Hn. Qed.

Lemma bfs_bucle_sin_clave pasos grafo destino nodo camino_actual cola visitados :
  nodo ∉ dom grafo → nodo ≠ destino →
  bfs_bucle (S pasos) grafo destino ((nodo, camino_actual) :: cola) visitados
    = bfs_bucle pasos grafo destino cola visitados.
Proof.
  intros Hn Hd. simpl. case_decide; [done|].
  by rewrite vecinos_de_sin_clave.
Qed.

Lemma grafo_abierto_no_cerrado : ¬ claves_cerradas grafo_abierto.
Proof.
  intros Hc. specialize (Hc "A" "Z" ["Z"]).
  assert ("Z" ∉ dom grafo_abierto) as Hz
    by (apply (bool_decide_unpack _); by vm_compute).
  apply Hz, Hc; [by vm_compute | set_solver].
Qed.

Example bfs_grafo_abierto :
  bfs_grados_de_separacion grafo_abierto "A" "B"
    = Some (None, Some MSG_SIN_CONEXION).
Proof. by vm_compute. Qed.

(** C10. The search is total on every adjacency mapping, closed under
    neighbours or not: within its step budget it always returns, either the
    unknown-node message, or a shortest walk, or the no-connection message
    when there is no walk. *)
Theorem bfs_total grafo inicio destino :
  ∃ r, bfs_grados_de_separacion grafo inicio destino = Some r ∧
    (r = (None, Some MSG_NODO_INEXISTENTE) ∨ bfs_post grafo inicio destino r).
Proof.
  destruct (decide (inicio ∉ dom grafo ∨ destino ∉ dom grafo)) as [Hno|Hsi].
  - rewrite bfs_sin_claves by done. eauto.
  - assert (inicio ∈ dom grafo) as Hi
      by (destruct (decide (inicio ∈ dom grafo)); tauto).
    assert (destino ∈ dom grafo) as Hd
      by (destruct (decide (destino ∈ dom grafo)); tauto).
    destruct (bfs_con_claves grafo inicio destino Hi Hd) as (r & -> & Hpost).
    eauto.
Qed.

Lemma bfs_total_witness :
  ¬ claves_cerradas grafo_abierto ∧
  ∃ r, bfs_grados_de_separacion grafo_abierto "A" "B" = Some r ∧
    (r = (None, Some MSG_NODO_INEXISTENTE) ∨ bfs_post grafo_abierto "A" "B" r).
Proof. split; [apply grafo_abierto_no_cerrado | apply bfs_total]. Defined.

(** ** Graph builder *)

(** C7. The graph built from any text is symmetric, and every node in a
    neighbour list is a key of the graph. *)
Theorem parsear_invariantes texto :
  ∃ grafo, parsear_entrada_a_grafo texto = Some grafo ∧
           simetrico grafo ∧ claves_cerradas grafo.
Proof.
  destruct (parsear_spec texto) as (g & Hg & _).
  exists g. eauto using parsear_simetrico, parsear_claves_cerradas.
Qed.

(** C8. The builder never fails, and the lines of the text with exactly two
    tokens are the only ones that count: [y] is a neighbour of [x] exactly
    when some line has the two tokens [x y] or [y x], and [x] is a key
    exactly when it is one of the two tokens of such a line. A line with
    0, 1, 3 or more tokens adds no key and no edge. *)
Theorem parsear_lineas_de_dos_tokens texto :
  ∃ grafo, parsear_entrada_a_grafo texto = Some grafo ∧
    (∀ x y, arista grafo x y ↔
       ∃ linea, linea ∈ str_split texto ∧
                (re_findall linea = [x; y] ∨ re_findall linea = [y; x])) ∧
    (∀ x, x ∈ dom grafo ↔
       ∃ linea y, linea ∈ str_split texto ∧
                  (re_findall linea = [x; y] ∨ re_findall linea = [y; x])).
Proof.
  destruct (parsear_spec texto) as (g & Hg & Hd & Ha).
  exists g. split; [done|].
  assert (∀ x y,
    (∃ linea, linea ∈ lineas_de texto ∧
              (linea_arista linea x y ∨ linea_arista linea y x)) ↔
    (∃ linea, linea ∈ str_split texto ∧
              (re_findall linea = [x; y] ∨ re_findall linea = [y; x]))) as Hl.
  { intros x y. pose proof (lineas_de_texto texto x y) as [H1 H2].
    pose proof (lineas_de_texto texto y x) as [H3 H4].
    fold (linea_arista) in *. split; intros (l & Hin & [Hxy|Hyx]).
    - destruct H1 as (l' & ? & ?); eauto.
    - destruct H3 as (l' & ? & ?); eauto.
    - destruct H2 as (l' & ? & ?); eauto.
    - destruct H4 as (l' & ? & ?); eauto. }
  split.
  - intros x y. by rewrite Ha, Hl.
  - intros x. rewrite Hd. split.
    + intros (l & y & Hin & Hxy).
      destruct (Hl x y) as [(l' & ? & ?) _]; eauto.
    + intros (l & y & Hin & Hxy).
      destruct (Hl x y) as [_ (l' & ? & ?)]; eauto.
Qed.

(** Lines with one token, with three, or with none are dropped without
    an error; a line naming the same node twice gives a self-loop, entered
    once. *)
Example parsear_lineas_mal_formadas :
  parsear_entrada_a_grafo "solo
x-y-z
 uno , dos ;

A A"
  = Some (list_to_map [("uno", ["dos"]); ("dos", ["uno"]); ("A", ["A"])]).
Proof. by vm_compute. Qed.

Example parsear_texto_vacio : parsear_entrada_a_grafo "" = Some ∅.
Proof. by vm_compute. Qed.

(** C9. Parsing is idempotent through the rendering: for every text, the
    graph of the text, rendered as edge lines and parsed again, has the same
    keys and the same edges. *)
Theorem parsear_render texto :
  ∃ grafo grafo',
    parsear_entrada_a_grafo texto = Some grafo ∧
    parsear_entrada_a_grafo (render_grafo grafo) = Some grafo' ∧
    dom grafo' = dom grafo ∧
    ∀ x y, arista grafo' x y ↔ arista grafo x y.
Proof.
  destruct (parsear_spec texto) as (g & Hg & _).
  destruct (parsear_render_aristas texto g (aristas_de g) Hg)
    as (g' & Hg' & Hdom & Hedges).
  - intros x y. apply aristas_de_spec.
  - intros x y ?. left. by apply aristas_de_spec.
  - by exists g, g'.
Qed.

(** The edge set comes back but not the lists themselves: rendering the
    scenario graph key by key, in the order the keys were first seen, and
    parsing again moves [C] before [H] in the list of [G]. *)
Example render_cambia_orden :
  ∃ grafo',
    parsear_entrada_a_grafo
      (render_aristas
         [("A", "B"); ("A", "G"); ("B", "A"); ("B", "C"); ("C", "B");
          ("C", "D"); ("C", "G"); ("D", "C"); ("D", "E"); ("E", "D");
          ("E", "F"); ("F", "E"); ("F", "J"); ("G", "A"); ("G", "H");
          ("G", "C"); ("H", "G"); ("H", "I"); ("I", "H"); ("I", "J");
          ("J", "I"); ("J", "F")]) = Some grafo' ∧
    grafo' !! "G" = Some ["A"; "C"; "H"] ∧
    grafo_escenario !! "G" = Some ["A"; "H"; "C"].
Proof. eexists. split_and!; by vm_compute. Qed.

(** * Further properties of the code *)

(** ** The builder, list by list *)


Lemma agregar_unico_NoDup vs x : NoDup vs → NoDup (agregar_unico vs x).
Proof.
  unfold agregar_unico. case_decide; [done|]. intros Hnd.
  apply NoDup_app. split_and!; [done| |apply NoDup_singleton].
  intros y Hy ->%list_elem_of_singleton. done.
Qed.


Lemma foldl_agregar_unico_NoDup ss : ∀ vs,
  NoDup vs → NoDup (foldl agregar_unico vs ss).
Proof.
  induction ss as [|x ss IH]; intros vs Hnd; simpl; [done|].
  by apply IH, agregar_unico_NoDup.
Qed.

Lemma foldl_agregar_unico_prefijo ss : ∀ vs,
  ∃ extra, foldl agregar_unico vs ss = vs ++ extra.
Proof.
  induction ss as [|x ss IH]; intros vs; simpl.
  - exists []. by rewrite app_nil_r.
  - destruct (IH (agregar_unico vs x)) as [extra ->].
    unfold agregar_unico. case_decide; [by exists extra|].
    exists (x :: extra). by rewrite <- app_assoc.
Qed.


Lemma socios_par_nil x a b : socios_par x a b = [] ↔ x ≠ a ∧ x ≠ b.
Proof. unfold socios_par. repeat case_decide; naive_solver. Qed.

Lemma asegurar_clave_lookup k grafo x :
  asegurar_clave k grafo !! x
    = if decide (x = k) then Some (default [] (grafo !! x)) else grafo !! x.
Proof.
  unfold asegurar_clave. case_decide as Hk.
  - apply elem_of_dom in Hk as [v Hv]. case_decide; [|done].
    subst. by rewrite Hv.
  - apply not_elem_of_dom in Hk. case_decide.
    + subst. by rewrite lookup_insert_eq, Hk.
    + by rewrite lookup_insert_ne.
Qed.

Lemma conectar_lookup a b grafo :
  a ∈ dom grafo →
  ∃ grafo', conectar a b grafo = Some grafo' ∧
    ∀ x, grafo' !! x =
         if decide (x = a) then Some (agregar_unico (default [] (grafo !! x)) b)
         else grafo !! x.
Proof.
  intros [va Ha]%elem_of_dom. unfold conectar, subscript, agregar_unico.
  rewrite Ha. simpl.
  case_decide as Hb; eexists; (split; [done|]); intros x; case_decide; subst.
  - rewrite Ha. simpl. by rewrite decide_True.
  - done.
  - rewrite lookup_insert_eq, Ha. simpl. by rewrite decide_False.
  - by rewrite lookup_insert_ne.
Qed.

(** The lists after one valid edge. *)
Lemma agregar_arista_lookup nodo1 nodo2 grafo :
  ∃ grafo', agregar_arista nodo1 nodo2 grafo = Some grafo' ∧
    ∀ x, grafo' !! x =
         if decide (x = nodo1 ∨ x = nodo2) then
           Some (foldl agregar_unico (default [] (grafo !! x))
                   (socios_par x nodo1 nodo2))
         else grafo !! x.
Proof.
  unfold agregar_arista.
  set (g2 := asegurar_clave nodo2 (asegurar_clave nodo1 grafo)).
  assert (dom g2 = {[nodo1; nodo2]} ∪ dom grafo) as Hdom.
  { unfold g2. rewrite !asegurar_clave_dom. set_solver. }
  destruct (conectar_lookup nodo1 nodo2 g2) as (g3 & -> & H3); [set_solver|].
  simpl.
  destruct (conectar_lookup nodo2 nodo1 g3) as (g4 & -> & H4).
  { apply elem_of_dom. rewrite H3. case_decide; [eauto|].
    apply elem_of_dom. set_solver. }
  eexists. split; [done|]. intros x. rewrite H4, H3. unfold g2.
  rewrite !asegurar_clave_lookup. unfold socios_par.
  repeat case_decide; simplify_eq/=; try done; naive_solver.
Qed.

Lemma procesar_linea_lookup grafo linea :
  ∃ grafo', procesar_linea grafo linea = Some grafo' ∧
    ∀ x, grafo' !! x =
         if decide (socios_tokens x (re_findall linea) = []) then grafo !! x
         else Some (foldl agregar_unico (default [] (grafo !! x))
                      (socios_tokens x (re_findall linea))).
Proof.
  unfold procesar_linea. rewrite re_findall_strip.
  destruct (re_findall linea) as [|a [|b [|? ?]]]; simpl; try by eauto.
  destruct (agregar_arista_lookup a b grafo) as (g' & -> & Hg').
  exists g'. split; [done|]. intros x. rewrite Hg'.
  pose proof (socios_par_nil x a b).
  repeat case_decide; naive_solver.
Qed.

Lemma socios_cons x linea lineas :
  socios x (linea :: lineas)
    = socios_tokens x (re_findall linea) ++ socios x lineas.
Proof. reflexivity. Qed.

Lemma procesar_lineas_lookup lineas : ∀ grafo,
  ∃ grafo', procesar_lineas grafo lineas = Some grafo' ∧
    ∀ x, grafo' !! x =
         if decide (socios x lineas = []) then grafo !! x
         else Some (foldl agregar_unico (default [] (grafo !! x))
                      (socios x lineas)).
Proof.
  induction lineas as [|linea resto IH]; intros grafo.
  - by exists grafo.
  - cbn [procesar_lineas].
    destruct (procesar_linea_lookup grafo linea) as (g1 & -> & H1).
    cbn [mbind option_bind].
    destruct (IH g1) as (g2 & -> & H2). exists g2. split; [done|].
    intros x. rewrite H2, H1, socios_cons.
    destruct (socios_tokens x (re_findall linea)) as [|s1 ss1] eqn:Hs1;
      destruct (socios x resto) as [|s2 ss2] eqn:Hs2;
      repeat case_decide; try done.
    + by rewrite app_nil_r.
    + cbn [default]. by rewrite foldl_app.
Qed.

(** The token lists of the stripped text are those of the text, but for
    lines without tokens at both ends. *)
Lemma tokens_lineas_strip_eq s :
  ∃ k1 k2, re_findall <$> str_split s
           = replicate k1 [] ++ (re_findall <$> str_split (str_strip s))
               ++ replicate k2 [].
Proof.
  rewrite <- !tokens_lineas_re_findall. unfold str_strip.
  destruct (tokens_lineas_lstrip s) as [k1 ->].
  destruct (tokens_lineas_rstrip (str_lstrip s) EmptyString) as [k2 ->].
  by exists k1, k2.
Qed.

Lemma socios_tokens_bind x lineas :
  socios x lineas = (re_findall <$> lineas) ≫= socios_tokens x.
Proof.
  unfold socios. induction lineas as [|l ls IH]; [done|].
  csimpl. by rewrite IH.
Qed.

Lemma bind_replicate_nil x k :
  replicate k [] ≫= socios_tokens x = [].
Proof. induction k as [|k IH]; [done|]. csimpl. by rewrite IH. Qed.

Lemma socios_lineas_de x texto :
  socios x (lineas_de texto) = socios x (str_split texto).
Proof.
  unfold lineas_de. rewrite !socios_tokens_bind.
  destruct (tokens_lineas_strip_eq texto) as (k1 & k2 & ->).
  rewrite !bind_app, !bind_replicate_nil. by rewrite app_nil_r.
Qed.

(** X1. The builder in closed form: the list of [x] holds the partners the
    lines of the text name for [x], each once, in the order of their first
    mention; a name that no two-token line mentions is not a key. *)
Theorem parsear_vecinos texto :
  ∃ grafo, parsear_entrada_a_grafo texto = Some grafo ∧
    ∀ x, grafo !! x =
         if decide (socios x (str_split texto) = []) then None
         else Some (foldl agregar_unico [] (socios x (str_split texto))).
Proof.
  unfold parsear_entrada_a_grafo.
  destruct (procesar_lineas_lookup (lineas_de texto) ∅) as (g & -> & Hg).
  exists g. split; [done|]. intros x.
  rewrite Hg, socios_lineas_de, lookup_empty. done.
Qed.

Lemma parsear_lookup texto grafo x :
  parsear_entrada_a_grafo texto = Some grafo →
  grafo !! x =
    if decide (socios x (str_split texto) = []) then None
    else Some (foldl agregar_unico [] (socios x (str_split texto))).
Proof.
  unfold parsear_entrada_a_grafo.
  destruct (procesar_lineas_lookup (lineas_de texto) ∅) as (g & -> & Hg).
  intros [= <-]. by rewrite Hg, socios_lineas_de, lookup_empty.
Qed.

(** X2. No neighbour list of a built graph names a node twice. *)
Theorem parsear_sin_repetidos texto grafo x vs :
  parsear_entrada_a_grafo texto = Some grafo →
  grafo !! x = Some vs → NoDup vs.
Proof.
  intros Hg. rewrite (parsear_lookup _ _ x Hg).
  case_decide; [done|]. intros [= <-].
  apply foldl_agregar_unico_NoDup, NoDup_nil_2.
Qed.

Lemma parsear_sin_repetidos_witness :
  (parsear_entrada_a_grafo DEFAULT_CONNECTIONS = Some grafo_escenario ∧
   grafo_escenario !! "G" = Some ["A"; "H"; "C"]) ∧
  NoDup ["A"; "H"; "C"].
Proof.
  assert (parsear_entrada_a_grafo DEFAULT_CONNECTIONS = Some grafo_escenario)
    as Hp by (by vm_compute).
  assert (grafo_escenario !! "G" = Some ["A"; "H"; "C"]) as Hg
    by (by vm_compute).
  split; [repeat split; assumption|].
  exact (parsear_sin_repetidos DEFAULT_CONNECTIONS grafo_escenario "G" _ Hp Hg).
Defined.

(** X3. Every key of a built graph is a token, a non-empty run of word
    characters, and has at least one neighbour: the builder creates no
    isolated node. *)
Theorem parsear_claves texto grafo x :
  parsear_entrada_a_grafo texto = Some grafo →
  x ∈ dom grafo →
  es_nodo x ∧ ∃ v vs, grafo !! x = Some (v :: vs).
Proof.
  intros Hp Hx. split.
  - destruct (parsear_spec texto) as (g & Hg & Hd & _).
    rewrite Hp in Hg. simplify_eq.
    apply Hd in Hx as (linea & y & _ & [Hl|Hl]);
      apply linea_arista_nodos in Hl; tauto.
  - pose proof (parsear_lookup _ _ x Hp) as Hv.
    rewrite Hv. apply elem_of_dom in Hx as [vs Hvs]. rewrite Hv in Hvs.
    case_decide as Hs; [done|].
    destruct (socios x (str_split texto)) as [|s ss]; [done|].
    cbn [foldl]. unfold agregar_unico at 2.
    rewrite decide_False by apply not_elem_of_nil.
    destruct (foldl_agregar_unico_prefijo ss ([] ++ [s])) as [extra ->].
    by exists s, extra.
Qed.

Lemma parsear_claves_witness :
  (parsear_entrada_a_grafo DEFAULT_CONNECTIONS = Some grafo_escenario ∧
   "J" ∈ dom grafo_escenario) ∧
  es_nodo "J" ∧ ∃ v vs, grafo_escenario !! "J" = Some (v :: vs).
Proof.
  assert (parsear_entrada_a_grafo DEFAULT_CONNECTIONS = Some grafo_escenario)
    as Hp by (by vm_compute).
  assert ("J" ∈ dom grafo_escenario) as Hj
    by (apply (bool_decide_unpack _); by vm_compute).
  split; [repeat split; assumption|].
  exact (parsear_claves DEFAULT_CONNECTIONS grafo_escenario "J" Hp Hj).
Defined.

(** X4. More lines only extend a graph: a key stays a key and its list
    grows at the end, the entries it had keep their places. *)
Theorem procesar_lineas_extiende grafo lineas grafo' x vs :
  procesar_lineas grafo lineas = Some grafo' →
  grafo !! x = Some vs →
  ∃ extra, grafo' !! x = Some (vs ++ extra).
Proof.
  destruct (procesar_lineas_lookup lineas grafo) as (g & -> & Hg).
  intros [= <-] Hx. rewrite Hg, Hx. case_decide.
  - exists []. by rewrite app_nil_r.
  - simpl. destruct (foldl_agregar_unico_prefijo (socios x lineas) vs)
      as [extra ->]. eauto.
Qed.

Lemma procesar_lineas_extiende_witness :
  (procesar_lineas grafo_dos_islas ["B C"; "A: D"]
     = Some (list_to_map [("A", ["B"; "D"]); ("B", ["A"; "C"]);
                          ("C", ["D"; "B"]); ("D", ["C"; "A"])]) ∧
   grafo_dos_islas !! "A" = Some ["B"]) ∧
  ∃ extra,
    (list_to_map [("A", ["B"; "D"]); ("B", ["A"; "C"]);
                  ("C", ["D"; "B"]); ("D", ["C"; "A"])] : grafo_t) !! "A"
      = Some (["B"] ++ extra).
Proof.
  assert (procesar_lineas grafo_dos_islas ["B C"; "A: D"]
     = Some (list_to_map [("A", ["B"; "D"]); ("B", ["A"; "C"]);
                          ("C", ["D"; "B"]); ("D", ["C"; "A"])])) as Hp
    by (by vm_compute).
  assert (grafo_dos_islas !! "A" = Some ["B"]) as Ha by (by vm_compute).
  split; [repeat split; assumption|].
  exact (procesar_lineas_extiende _ _ _ "A" _ Hp Ha).
Defined.




(** ** The builder reads nothing but the lines with two tokens *)

Lemma procesar_lineas_tokens lineas : ∀ grafo,
  procesar_lineas grafo lineas = agregar_aristas grafo (re_findall <$> lineas).
Proof.
  induction lineas as [|linea resto IH]; intros grafo; [done|].
  cbn [procesar_lineas fmap list_fmap agregar_aristas].
  unfold procesar_linea. rewrite re_findall_strip.
  destruct (re_findall linea) as [|a [|b [|? ?]]]; cbn; try apply IH.
  destruct (agregar_arista a b grafo); cbn; [apply IH | done].
Qed.

Lemma agregar_aristas_filter tokens : ∀ grafo,
  agregar_aristas grafo tokens
    = agregar_aristas grafo (filter (λ ts, length ts = 2) tokens).
Proof.
  induction tokens as [|ts resto IH]; intros grafo; [done|].
  destruct ts as [|a [|b [|? ?]]].
  - rewrite filter_cons_False by done. apply IH.
  - rewrite filter_cons_False by done. apply IH.
  - rewrite filter_cons_True by done. cbn.
    destruct (agregar_arista a b grafo); cbn; [apply IH | done].
  - rewrite filter_cons_False by (simpl; lia). apply IH.
Qed.

Lemma filter_replicate_nil k :
  filter (λ ts : list string, length ts = 2) (replicate k []) = [].
Proof.
  induction k as [|k IH]; [done|]. simpl.
  by rewrite filter_cons_False.
Qed.

Lemma lineas_validas_strip texto :
  filter (λ ts, length ts = 2) (re_findall <$> lineas_de texto)
    = lineas_validas texto.
Proof.
  unfold lineas_validas, lineas_de.
  destruct (tokens_lineas_strip_eq texto) as (k1 & k2 & ->).
  rewrite !filter_app, !filter_replicate_nil. by rewrite app_nil_r.
Qed.

Lemma parsear_lineas_validas texto :
  parsear_entrada_a_grafo texto = agregar_aristas ∅ (lineas_validas texto).
Proof.
  unfold parsear_entrada_a_grafo.
  by rewrite procesar_lineas_tokens, agregar_aristas_filter,
    lineas_validas_strip.
Qed.

(** X6. The graph depends on the text only through the token lists of its
    two-token lines, in order: blank lines, malformed lines, punctuation and
    spacing make no difference. *)
Theorem parsear_solo_lineas_validas texto1 texto2 :
  lineas_validas texto1 = lineas_validas texto2 →
  parsear_entrada_a_grafo texto1 = parsear_entrada_a_grafo texto2.
Proof. intros Heq. by rewrite !parsear_lineas_validas, Heq. Qed.

Lemma parsear_solo_lineas_validas_witness :
  lineas_validas "A B
B C" = lineas_validas "

  A - B ;
uno dos tres
(B, C)
solo
" ∧
  parsear_entrada_a_grafo "A B
B C" = parsear_entrada_a_grafo "

  A - B ;
uno dos tres
(B, C)
solo
".
Proof.
  assert (lineas_validas "A B
B C" = lineas_validas "

  A - B ;
uno dos tres
(B, C)
solo
") as Hl by (by vm_compute).
  split; [repeat split; assumption|]. exact (parsear_solo_lineas_validas _ _ Hl).
Defined.

(** X7. The graph is empty exactly when no line of the text has two tokens:
    this is when the caller has no node to offer. *)
Theorem parsear_vacio texto :
  parsear_entrada_a_grafo texto = Some ∅
  ↔ ∀ linea, linea ∈ str_split texto → length (re_findall linea) ≠ 2.
Proof.
  destruct (parsear_spec texto) as (g & Hg & Hd & _). rewrite Hg. split.
  - intros [= ->] linea Hin Hlen.
    destruct (re_findall linea) as [|a [|b [|? ?]]] eqn:Hl; try done.
    destruct (lineas_de_texto texto a b) as [_ (l' & ? & ?)]; [by eauto|].
    assert (a ∈ dom (∅ : grafo_t)) as Ha by (apply Hd; eauto).
    by rewrite dom_empty_L in Ha.
  - intros Hno. f_equal. apply dom_empty_inv_L. apply set_eq. intros x.
    rewrite Hd. split; [|by intros ?%elem_of_empty].
    intros (linea & y & Hin & [Hl|Hl]).
    + destruct (lineas_de_texto texto x y) as [(l' & Hin' & Hl') _];
        [by eauto|]. apply Hno in Hin'. unfold linea_arista in Hl'.
      by rewrite Hl' in Hin'.
    + destruct (lineas_de_texto texto y x) as [(l' & Hin' & Hl') _];
        [by eauto|]. apply Hno in Hin'. unfold linea_arista in Hl'.
      by rewrite Hl' in Hin'.
Qed.

(** ** The route the search returns *)

Lemma bfs_bucle_NoDup grafo destino pasos : ∀ cola visitados ruta,
  (∀ v p, (v, p) ∈ cola → NoDup p ∧ ∀ x, x ∈ p → x ∈ visitados) →
  bfs_bucle pasos grafo destino cola visitados = Some (Some ruta, None) →
  NoDup ruta.
Proof.
  induction pasos as [|k IH]; intros cola visitados ruta Hinv;
    destruct cola as [|[v p] cola]; simpl; try done;
    case_decide as Hv; try done.
  - intros [= <-]. apply (Hinv v p). left.
  - intros [= <-]. apply (Hinv v p). left.
  - destruct (expandir_spec (vecinos_de grafo v) p cola visitados)
      as (nuevos & -> & _ & Hn & _).
    apply IH. intros x q [Hq|Hq]%elem_of_app.
    + destruct (Hinv x q) as [Hnd Hsub]; [by right|].
      split; [done|]. intros y Hy. apply elem_of_union. right. by apply Hsub.
    + destruct (Hn x q Hq) as (-> & _ & Hx).
      destruct (Hinv v p) as [Hnd Hsub]; [left|].
      split.
      * apply NoDup_app. split_and!; [done| |apply NoDup_singleton].
        intros y Hy ->%list_elem_of_singleton. by apply Hx, Hsub.
      * intros y [Hy| ->%list_elem_of_singleton]%elem_of_app.
        -- apply elem_of_union. right. by apply Hsub.
        -- apply elem_of_union. left. apply elem_of_list_to_set.
           by apply (list_elem_of_fmap_2 fst) in Hq.
Qed.

Lemma bfs_ruta_es_camino grafo inicio destino ruta :
  bfs_grados_de_separacion grafo inicio destino = Some (Some ruta, None) →
  inicio ∈ dom grafo ∧ destino ∈ dom grafo ∧
  es_camino grafo inicio destino ruta ∧
  ∀ p, es_camino grafo inicio destino p → length ruta ≤ length p.
Proof.
  intros Hr.
  destruct (decide (inicio ∉ dom grafo ∨ destino ∉ dom grafo)) as [Hno|Hsi].
  { by rewrite bfs_sin_claves in Hr. }
  assert (inicio ∈ dom grafo) as Hi
    by (destruct (decide (inicio ∈ dom grafo)); tauto).
  assert (destino ∈ dom grafo) as Hd
    by (destruct (decide (destino ∈ dom grafo)); tauto).
  destruct (bfs_con_claves grafo inicio destino Hi Hd)
    as (r & Hr' & [(p & -> & Hc & Hmin)|[-> _]]);
    rewrite Hr in Hr'; by simplify_eq.
Qed.

Lemma arista_clave grafo u v : arista grafo u v → u ∈ dom grafo.
Proof. intros (va & Hu & _)%arista_lookup. by apply elem_of_dom. Qed.

Lemma es_camino_claves grafo s t p x :
  es_camino grafo s t p → t ∈ dom grafo → x ∈ p → x ∈ dom grafo.
Proof.
  intros (_ & Hl & Hs) Ht [i Hi]%list_elem_of_lookup.
  destruct (p !! S i) as [y|] eqn:Hy.
  - eapply arista_clave, Hs; done.
  - rewrite last_lookup in Hl. apply lookup_ge_None in Hy.
    apply lookup_lt_Some in Hi as Hlt.
    replace (pred (length p)) with i in Hl by lia. by simplify_eq.
Qed.

Lemma bfs_ruta_NoDup grafo inicio destino ruta :
  bfs_grados_de_separacion grafo inicio destino = Some (Some ruta, None) →
  NoDup ruta.
Proof.
  intros Hr. unfold bfs_grados_de_separacion in Hr. case_decide; [done|].
  eapply bfs_bucle_NoDup; [|exact Hr].
  intros v p [= -> ->]%list_elem_of_singleton.
  split; [apply NoDup_singleton | set_solver].
Qed.

(** X8. A route the search returns visits no node twice and only keys of
    the graph, so it has at most as many nodes as the graph has keys. *)
Theorem bfs_ruta_simple grafo inicio destino ruta :
  bfs_grados_de_separacion grafo inicio destino = Some (Some ruta, None) →
  NoDup ruta ∧ (∀ x, x ∈ ruta → x ∈ dom grafo) ∧
  length ruta ≤ size (dom grafo).
Proof.
  intros Hr. destruct (bfs_ruta_es_camino _ _ _ _ Hr) as (Hi & Hd & Hc & _).
  pose proof (bfs_ruta_NoDup _ _ _ _ Hr) as Hnd.
  assert (∀ x, x ∈ ruta → x ∈ dom grafo) as Hsub
    by eauto using es_camino_claves.
  split_and!; [done..|].
  unfold size, set_size. simpl. apply submseteq_length, NoDup_submseteq; [done|].
  intros x Hx. apply elem_of_elements. auto.
Qed.

Lemma bfs_ruta_simple_witness :
  bfs_grados_de_separacion grafo_escenario "A" "H"
    = Some (Some ["A"; "G"; "H"], None) ∧
  NoDup ["A"; "G"; "H"] ∧
  (∀ x, x ∈ ["A"; "G"; "H"] → x ∈ dom grafo_escenario) ∧
  length ["A"; "G"; "H"] ≤ size (dom grafo_escenario).
Proof.
  assert (bfs_grados_de_separacion grafo_escenario "A" "H"
          = Some (Some ["A"; "G"; "H"], None)) as Hr by (by vm_compute).
  split; [repeat split; assumption|]. exact (bfs_ruta_simple _ _ _ _ Hr).
Defined.

(** Walks read backwards. *)
Lemma es_camino_reverse grafo s t p :
  (∀ a b, arista grafo a b → arista grafo b a) →
  es_camino grafo s t p → es_camino grafo t s (reverse p).
Proof.
  intros Hsim (H0 & Hl & Hs). split_and!.
  - by rewrite <- head_lookup, head_reverse.
  - by rewrite last_reverse, head_lookup.
  - intros i u v Hi HSi.
    apply lookup_lt_Some in HSi as Hlt. rewrite length_reverse in Hlt.
    rewrite reverse_lookup in Hi by lia.
    rewrite reverse_lookup in HSi by lia.
    apply Hsim, (Hs (length p - S (S i))); [done|].
    by replace (S (length p - S (S i))) with (length p - S i) by lia.
Qed.

Lemma simetrico_arista grafo a b :
  simetrico grafo → arista grafo a b → arista grafo b a.
Proof.
  intros Hsim (va & Ha & Hb)%arista_lookup. apply arista_lookup. eauto.
Qed.

Lemma bfs_alcanzable grafo inicio destino :
  inicio ∈ dom grafo → destino ∈ dom grafo →
  alcanzable grafo inicio destino →
  ∃ ruta,
    bfs_grados_de_separacion grafo inicio destino = Some (Some ruta, None).
Proof.
  intros Hi Hd Halc.
  destruct (bfs_con_claves grafo inicio destino Hi Hd)
    as (r & -> & [(p & -> & _)|[_ Hno]]); [eauto | done].
Qed.

(** X9. On a symmetric graph, and so on every built graph, the search
    finds a route from [b] to [a] whenever it finds one from [a] to [b], and
    the two have the same length. *)
Theorem bfs_simetrica grafo a b ruta :
  simetrico grafo →
  bfs_grados_de_separacion grafo a b = Some (Some ruta, None) →
  ∃ vuelta,
    bfs_grados_de_separacion grafo b a = Some (Some vuelta, None) ∧
    length vuelta = length ruta.
Proof.
  intros Hsim Hr.
  destruct (bfs_ruta_es_camino _ _ _ _ Hr) as (Ha & Hb & Hc & Hmin).
  pose proof (λ x y, simetrico_arista grafo x y Hsim) as Har.
  destruct (bfs_alcanzable grafo b a Hb Ha) as [vuelta Hv].
  { exists (reverse ruta). by apply es_camino_reverse. }
  exists vuelta. split; [done|].
  destruct (bfs_ruta_es_camino _ _ _ _ Hv) as (_ & _ & Hc' & Hmin').
  apply (es_camino_reverse _ _ _ _ Har) in Hc as Hrev.
  apply (es_camino_reverse _ _ _ _ Har) in Hc' as Hrev'.
  apply Hmin' in Hrev. apply Hmin in Hrev'.
  rewrite length_reverse in Hrev, Hrev'. lia.
Qed.

Lemma bfs_simetrica_witness :
  (simetrico grafo_escenario ∧
   bfs_grados_de_separacion grafo_escenario "A" "F"
     = Some (Some ["A"; "B"; "C"; "D"; "E"; "F"], None)) ∧
  ∃ vuelta,
    bfs_grados_de_separacion grafo_escenario "F" "A"
      = Some (Some vuelta, None) ∧
    length vuelta = length ["A"; "B"; "C"; "D"; "E"; "F"].
Proof.
  assert (simetrico grafo_escenario) as Hs.
  { apply (parsear_simetrico DEFAULT_CONNECTIONS). by vm_compute. }
  assert (bfs_grados_de_separacion grafo_escenario "A" "F"
          = Some (Some ["A"; "B"; "C"; "D"; "E"; "F"], None)) as Hr
    by (by vm_compute).
  split; [repeat split; assumption|]. exact (bfs_simetrica _ _ _ _ Hs Hr).
Defined.

Lemma bfs_un_salto grafo a b :
  a ∈ dom grafo → b ∈ dom grafo → a ≠ b → es_camino grafo a b [a; b] →
  bfs_grados_de_separacion grafo a b = Some (Some [a; b], None).
Proof.
  intros Ha Hb Hne Hc.
  destruct (bfs_alcanzable grafo a b Ha Hb) as [ruta Hr]; [by exists [a; b]|].
  rewrite Hr. destruct (bfs_ruta_es_camino _ _ _ _ Hr)
    as (_ & _ & (H0 & Hl & _) & Hmin).
  apply Hmin in Hc. simpl in Hc.
  destruct ruta as [|x [|y [|? ?]]]; simplify_eq/=; try done; lia.
Qed.

Lemma es_camino_arista grafo a b :
  arista grafo a b → es_camino grafo a b [a; b].
Proof.
  intros Har. split_and!; [done..|].
  intros [|[|i]] u v ??; by simplify_eq/=.
Qed.

(** X10. Between two distinct keys joined by an edge the route is the edge
    itself: one degree of separation. *)
Theorem bfs_vecino_directo grafo a b :
  a ∈ dom grafo → b ∈ dom grafo → a ≠ b → arista grafo a b →
  bfs_grados_de_separacion grafo a b = Some (Some [a; b], None).
Proof.
  intros Ha Hb Hne Har. apply bfs_un_salto; [done..|].
  by apply es_camino_arista.
Qed.

Lemma bfs_vecino_directo_witness :
  ("C" ∈ dom grafo_escenario ∧ "G" ∈ dom grafo_escenario ∧ "C" ≠ "G" ∧
   arista grafo_escenario "C" "G") ∧
  bfs_grados_de_separacion grafo_escenario "C" "G"
    = Some (Some ["C"; "G"], None).
Proof.
  assert ("C" ∈ dom grafo_escenario) as HC
    by (apply (bool_decide_unpack _); by vm_compute).
  assert ("G" ∈ dom grafo_escenario) as HG
    by (apply (bool_decide_unpack _); by vm_compute).
  assert ("C" ≠ "G") as Hne by done.
  assert (arista grafo_escenario "C" "G") as Har
    by (unfold arista; apply (bool_decide_unpack _); by vm_compute).
  split; [repeat split; assumption|]. exact (bfs_vecino_directo _ _ _ HC HG Hne Har).
Defined.

(** ** Builder and search together *)

Lemma lineas_validas_elem texto x y :
  [x; y] ∈ lineas_validas texto
  ↔ ∃ linea, linea ∈ str_split texto ∧ re_findall linea = [x; y].
Proof.
  unfold lineas_validas. rewrite list_elem_of_filter, list_elem_of_fmap.
  split.
  - intros (_ & linea & ? & ?). eauto.
  - intros (linea & ? & Hl). split; [done|]. exists linea. by rewrite Hl.
Qed.

(** The keys and edges of a built graph, read off its valid lines. *)
Lemma parsear_lineas_validas_spec texto grafo :
  parsear_entrada_a_grafo texto = Some grafo →
  (∀ x, x ∈ dom grafo ↔
     ∃ y, [x; y] ∈ lineas_validas texto ∨ [y; x] ∈ lineas_validas texto) ∧
  (∀ x y, arista grafo x y ↔
     [x; y] ∈ lineas_validas texto ∨ [y; x] ∈ lineas_validas texto).
Proof.
  destruct (parsear_spec texto) as (g & -> & Hd & Ha). intros [= <-].
  assert (∀ x y, (∃ linea, linea ∈ lineas_de texto ∧ linea_arista linea x y)
                 ↔ [x; y] ∈ lineas_validas texto) as Hl.
  { intros x y. by rewrite lineas_de_texto, lineas_validas_elem. }
  split.
  - intros x. rewrite Hd. split.
    + intros (linea & y & Hin & [Hxy|Hyx]); exists y;
        [left|right]; apply Hl; eauto.
    + intros (y & [(linea & ? & ?)%Hl|(linea & ? & ?)%Hl]); eauto 6.
  - intros x y. rewrite Ha. split.
    + intros (linea & Hin & [Hxy|Hyx]); [left|right]; apply Hl; eauto.
    + intros [(linea & ? & ?)%Hl|(linea & ? & ?)%Hl]; eauto.
Qed.

(** X11. Two different names on one two-token line of the text are one
    degree apart in the built graph, in both directions. *)
Theorem parsear_bfs_linea texto linea a b :
  linea ∈ str_split texto → re_findall linea = [a; b] → a ≠ b →
  ∃ grafo,
    parsear_entrada_a_grafo texto = Some grafo ∧
    bfs_grados_de_separacion grafo a b = Some (Some [a; b], None) ∧
    bfs_grados_de_separacion grafo b a = Some (Some [b; a], None).
Proof.
  intros Hin Hl Hne.
  destruct (parsear_spec texto) as (g & Hg & _). exists g. split; [done|].
  destruct (parsear_lineas_validas_spec texto g Hg) as [Hd Ha].
  assert ([a; b] ∈ lineas_validas texto) as Hab
    by (apply lineas_validas_elem; eauto).
  assert (a ∈ dom g) by (apply Hd; eauto).
  assert (b ∈ dom g) by (apply Hd; eauto).
  split; apply bfs_un_salto; try done; apply es_camino_arista, Ha; auto.
Qed.

Lemma parsear_bfs_linea_witness :
  ("C G" ∈ str_split DEFAULT_CONNECTIONS ∧ re_findall "C G" = ["C"; "G"] ∧
   "C" ≠ "G") ∧
  ∃ grafo,
    parsear_entrada_a_grafo DEFAULT_CONNECTIONS = Some grafo ∧
    bfs_grados_de_separacion grafo "C" "G" = Some (Some ["C"; "G"], None) ∧
    bfs_grados_de_separacion grafo "G" "C" = Some (Some ["G"; "C"], None).
Proof.
  assert ("C G" ∈ str_split DEFAULT_CONNECTIONS) as Hin
    by (apply (bool_decide_unpack _); by vm_compute).
  assert (re_findall "C G" = ["C"; "G"]) as Hl by (by vm_compute).
  assert ("C" ≠ "G") as Hne by discriminate.
  split; [repeat split; assumption|].
  exact (parsear_bfs_linea _ _ _ _ Hin Hl Hne).
Defined.

Lemma es_camino_mono grafo grafo' s t p :
  (∀ x y, arista grafo x y → arista grafo' x y) →
  es_camino grafo s t p → es_camino grafo' s t p.
Proof. intros Hsub (H0 & Hl & Hs). split_and!; [done..|]. eauto. Qed.

(** X12. A text that has every valid line of another, and more, gives a
    graph in which the search still finds each route the other graph had,
    or a shorter one: more connections never lengthen a route. *)
Theorem parsear_mas_lineas texto texto' grafo grafo' a b ruta :
  parsear_entrada_a_grafo texto = Some grafo →
  parsear_entrada_a_grafo texto' = Some grafo' →
  lineas_validas texto ⊆ lineas_validas texto' →
  bfs_grados_de_separacion grafo a b = Some (Some ruta, None) →
  ∃ ruta',
    bfs_grados_de_separacion grafo' a b = Some (Some ruta', None) ∧
    length ruta' ≤ length ruta.
Proof.
  intros Hg Hg' Hsub Hr.
  destruct (parsear_lineas_validas_spec _ _ Hg) as [Hd Ha].
  destruct (parsear_lineas_validas_spec _ _ Hg') as [Hd' Ha'].
  destruct (bfs_ruta_es_camino _ _ _ _ Hr) as (Hka & Hkb & Hc & _).
  assert (∀ x, x ∈ dom grafo → x ∈ dom grafo') as Hdom.
  { intros x (y & [?|?])%Hd; apply Hd'; exists y; [left|right]; by apply Hsub. }
  assert (es_camino grafo' a b ruta) as Hc'.
  { eapply es_camino_mono; [|exact Hc].
    intros x y [?|?]%Ha; apply Ha'; [left|right]; by apply Hsub. }
  destruct (bfs_alcanzable grafo' a b) as [ruta' Hr']; [auto..|by exists ruta|].
  exists ruta'. split; [done|].
  destruct (bfs_ruta_es_camino _ _ _ _ Hr') as (_ & _ & _ & Hmin). auto.
Qed.

Lemma parsear_mas_lineas_witness :
  (parsear_entrada_a_grafo "A B
B C
C D
D E
E F" = Some (list_to_map
               [("A", ["B"]); ("B", ["A"; "C"]); ("C", ["B"; "D"]);
                ("D", ["C"; "E"]); ("E", ["D"; "F"]); ("F", ["E"])]) ∧
   parsear_entrada_a_grafo "A B
B C
C D
D E
E F
F A" = Some (list_to_map
               [("A", ["B"; "F"]); ("B", ["A"; "C"]); ("C", ["B"; "D"]);
                ("D", ["C"; "E"]); ("E", ["D"; "F"]); ("F", ["E"; "A"])]) ∧
   lineas_validas "A B
B C
C D
D E
E F" ⊆ lineas_validas "A B
B C
C D
D E
E F
F A" ∧
   bfs_grados_de_separacion
     (list_to_map
        [("A", ["B"]); ("B", ["A"; "C"]); ("C", ["B"; "D"]);
         ("D", ["C"; "E"]); ("E", ["D"; "F"]); ("F", ["E"])]) "A" "F"
     = Some (Some ["A"; "B"; "C"; "D"; "E"; "F"], None)) ∧
  ∃ ruta',
    bfs_grados_de_separacion
      (list_to_map
         [("A", ["B"; "F"]); ("B", ["A"; "C"]); ("C", ["B"; "D"]);
          ("D", ["C"; "E"]); ("E", ["D"; "F"]); ("F", ["E"; "A"])]) "A" "F"
      = Some (Some ruta', None) ∧
    length ruta' ≤ length ["A"; "B"; "C"; "D"; "E"; "F"].
Proof.
  assert (parsear_entrada_a_grafo "A B
B C
C D
D E
E F" = Some (list_to_map
               [("A", ["B"]); ("B", ["A"; "C"]); ("C", ["B"; "D"]);
                ("D", ["C"; "E"]); ("E", ["D"; "F"]); ("F", ["E"])])) as Hg
    by (vm_compute; reflexivity).
  assert (parsear_entrada_a_grafo "A B
B C
C D
D E
E F
F A" = Some (list_to_map
               [("A", ["B"; "F"]); ("B", ["A"; "C"]); ("C", ["B"; "D"]);
                ("D", ["C"; "E"]); ("E", ["D"; "F"]); ("F", ["E"; "A"])]))
    as Hg' by (vm_compute; reflexivity).
  assert (lineas_validas "A B
B C
C D
D E
E F" ⊆ lineas_validas "A B
B C
C D
D E
E F
F A") as Hsub by (apply (bool_decide_unpack _); vm_compute; exact I).
  assert (bfs_grados_de_separacion
     (list_to_map
        [("A", ["B"]); ("B", ["A"; "C"]); ("C", ["B"; "D"]);
         ("D", ["C"; "E"]); ("E", ["D"; "F"]); ("F", ["E"])]) "A" "F"
     = Some (Some ["A"; "B"; "C"; "D"; "E"; "F"], None)) as Hr
    by (vm_compute; reflexivity).
  split; [repeat split; assumption|].
  exact (parsear_mas_lineas _ _ _ _ _ _ _ Hg Hg' Hsub Hr).
Defined.

(** ** Self-loops do not count *)

Lemma quitar_bucles_lookup grafo k :
  quitar_bucles grafo !! k = filter (λ v, v ≠ k) <$> grafo !! k.
Proof.
  unfold quitar_bucles. rewrite map_lookup_imap.
  by destruct (grafo !! k).
Qed.

Lemma quitar_bucles_dom grafo : dom (quitar_bucles grafo) = dom grafo.
Proof.
  apply set_eq. intros k. rewrite !elem_of_dom, quitar_bucles_lookup.
  by rewrite fmap_is_Some.
Qed.

Lemma quitar_bucles_vecinos grafo k :
  vecinos_de (quitar_bucles grafo) k = filter (λ v, v ≠ k) (vecinos_de grafo k).
Proof.
  unfold vecinos_de. rewrite quitar_bucles_lookup.
  by destruct (grafo !! k).
Qed.

Lemma elem_of_nodos_de grafo x :
  x ∈ nodos_de grafo ↔ x ∈ dom grafo ∨ ∃ k, arista grafo k x.
Proof.
  split.
  - unfold nodos_de. intros [?|Hx]%elem_of_union; [by left|]. right.
    apply elem_of_union_list in Hx as (X & HX & Hx).
    apply list_elem_of_fmap in HX as (vs & -> & Hvs).
    apply list_elem_of_fmap in Hvs as ([k vs'] & -> & Hk).
    apply elem_of_map_to_list in Hk. exists k. apply arista_lookup.
    exists vs'. split; [done|]. by apply elem_of_list_to_set in Hx.
  - intros [?|[k Hk]]; [unfold nodos_de; set_solver|].
    by eapply arista_nodos.
Qed.

Lemma quitar_bucles_nodos grafo : nodos_de (quitar_bucles grafo) = nodos_de grafo.
Proof.
  apply set_eq. intros x. rewrite !elem_of_nodos_de, quitar_bucles_dom.
  unfold arista. setoid_rewrite quitar_bucles_vecinos.
  setoid_rewrite list_elem_of_filter. split.
  - intros [?|(k & _ & ?)]; eauto.
  - intros [?|(k & Hk)]; [by left|].
    destruct (decide (x = k)) as [->|Hne]; [|by eauto].
    left. by eapply arista_clave.
Qed.

(** A visited node among the neighbours is skipped, listed or not. *)
Lemma expandir_filter v vecinos camino_actual : ∀ cola visitados,
  v ∈ visitados →
  expandir (filter (λ x, x ≠ v) vecinos) camino_actual cola visitados
    = expandir vecinos camino_actual cola visitados.
Proof.
  induction vecinos as [|x vs IH]; intros cola visitados Hv; [done|].
  destruct (decide (x = v)) as [->|Hne].
  - rewrite filter_cons_False by (intros ?; done). simpl.
    rewrite decide_True by done. by apply IH.
  - rewrite filter_cons_True by done. simpl.
    case_decide; apply IH; set_solver.
Qed.

Lemma bfs_bucle_quitar_bucles grafo destino pasos : ∀ cola visitados,
  (∀ v p, (v, p) ∈ cola → v ∈ visitados) →
  bfs_bucle pasos (quitar_bucles grafo) destino cola visitados
    = bfs_bucle pasos grafo destino cola visitados.
Proof.
  induction pasos as [|k IH]; intros cola visitados Hinv;
    destruct cola as [|[v p] cola]; simpl; try done.
  case_decide; [done|].
  rewrite quitar_bucles_vecinos, expandir_filter by (apply (Hinv v p); left).
  destruct (expandir_spec (vecinos_de grafo v) p cola visitados)
    as (nuevos & -> & _ & _ & _).
  apply IH. intros x q [Hq|Hq]%elem_of_app.
  - apply elem_of_union. right. apply (Hinv x q). by right.
  - apply elem_of_union. left. apply elem_of_list_to_set.
    by apply (list_elem_of_fmap_2 fst) in Hq.
Qed.

(** X13. Self-loops never matter to the search: on every graph it answers
    as on the graph with the self-loops taken out. *)
Theorem bfs_quitar_bucles grafo inicio destino :
  bfs_grados_de_separacion (quitar_bucles grafo) inicio destino
    = bfs_grados_de_separacion grafo inicio destino.
Proof.
  unfold bfs_grados_de_separacion, presupuesto.
  rewrite quitar_bucles_dom, quitar_bucles_nodos.
  case_decide; [done|]. apply bfs_bucle_quitar_bucles.
  intros v p [= -> ->]%list_elem_of_singleton. set_solver.
Qed.

(** ** The caller *)

Lemma elem_of_nodos_disponibles grafo x :
  x ∈ nodos_disponibles grafo ↔ x ∈ dom grafo.
Proof.
  unfold nodos_disponibles.
  by rewrite merge_sort_Permutation, elem_of_elements.
Qed.

(** X14. The nodes offered for selection are the keys of the graph, each
    once, in increasing order; none is offered exactly when the graph is
    empty. *)
Theorem nodos_disponibles_claves grafo :
  (∀ x, x ∈ nodos_disponibles grafo ↔ x ∈ dom grafo) ∧
  NoDup (nodos_disponibles grafo) ∧
  StronglySorted String.le (nodos_disponibles grafo) ∧
  (nodos_disponibles grafo = [] ↔ grafo = ∅).
Proof.
  split_and!.
  - apply elem_of_nodos_disponibles.
  - unfold nodos_disponibles. rewrite merge_sort_Permutation.
    apply NoDup_elements.
  - apply StronglySorted_merge_sort; apply _.
  - split.
    + intros Hnil. apply dom_empty_inv_L, set_eq. intros x.
      rewrite <- elem_of_nodos_disponibles, Hnil. set_solver.
    + intros ->. unfold nodos_disponibles.
      by rewrite dom_empty_L, elements_empty.
Qed.

Lemma verdadero_nodo s : es_nodo s → verdadero (Some s) = true.
Proof. intros [Hne _]. by destruct s. Qed.

(** X15. With the two nodes picked among those a built graph offers, the
    button shows a shortest route with its number of edges, the distance,
    or else the no-connection message, and that only when no walk joins
    them; it never asks for a selection nor reports an unknown node. *)
Theorem buscar_camino_seleccion texto grafo inicio destino :
  parsear_entrada_a_grafo texto = Some grafo →
  inicio ∈ nodos_disponibles grafo → destino ∈ nodos_disponibles grafo →
  ∃ v, buscar_camino grafo (Some inicio) (Some destino) = Some v ∧
    ((∃ ruta, v = VistaRuta (length ruta - 1) ruta ∧
              es_camino grafo inicio destino ruta ∧
              distancia grafo inicio destino (length ruta - 1)) ∨
     (v = VistaError (Some MSG_SIN_CONEXION) ∧
      ¬ alcanzable grafo inicio destino)).
Proof.
  intros Hg Hi Hd.
  apply elem_of_nodos_disponibles in Hi, Hd.
  assert (es_nodo inicio ∧ es_nodo destino) as [Hni Hnd].
  { destruct (parsear_spec texto) as (g & Hg' & Hdom & _).
    rewrite Hg in Hg'. injection Hg' as <-.
    apply Hdom in Hi as (l1 & y1 & _ & [H1|H1]);
      apply Hdom in Hd as (l2 & y2 & _ & [H2|H2]);
      apply linea_arista_nodos in H1, H2; tauto. }
  unfold buscar_camino. rewrite !verdadero_nodo by done. cbn [andb].
  destruct (bfs_con_claves grafo inicio destino Hi Hd)
    as (r & -> & [(ruta & -> & Hc & Hmin)|[-> Hno]]); cbn.
  - assert (ruta ≠ []) as Hne by eauto using es_camino_no_vacio.
    destruct ruta as [|x resto]; [done|].
    eexists. split; [done|]. left. exists (x :: resto).
    split_and!; [done..|]. split.
    + exists (x :: resto). split; [done|]. simpl. lia.
    + intros p Hp%Hmin. simpl in *. lia.
  - eexists. split; [done|]. by right.
Qed.

Lemma buscar_camino_seleccion_witness :
  (parsear_entrada_a_grafo DEFAULT_CONNECTIONS = Some grafo_escenario ∧
   "A" ∈ nodos_disponibles grafo_escenario ∧
   "H" ∈ nodos_disponibles grafo_escenario) ∧
  ∃ v, buscar_camino grafo_escenario (Some "A") (Some "H") = Some v ∧
    ((∃ ruta, v = VistaRuta (length ruta - 1) ruta ∧
              es_camino grafo_escenario "A" "H" ruta ∧
              distancia grafo_escenario "A" "H" (length ruta - 1)) ∨
     (v = VistaError (Some MSG_SIN_CONEXION) ∧
      ¬ alcanzable grafo_escenario "A" "H")).
Proof.
  assert (parsear_entrada_a_grafo DEFAULT_CONNECTIONS = Some grafo_escenario)
    as Hg by (vm_compute; reflexivity).
  assert ("A" ∈ nodos_disponibles grafo_escenario) as HA
    by (apply (bool_decide_unpack _); vm_compute; exact I).
  assert ("H" ∈ nodos_disponibles grafo_escenario) as HH
    by (apply (bool_decide_unpack _); vm_compute; exact I).
  split; [repeat split; assumption|].
  exact (buscar_camino_seleccion _ _ _ _ Hg HA HH).
Defined.

Lemma bfs_resultado_forma grafo inicio destino r :
  bfs_grados_de_separacion grafo inicio destino = Some r →
  (∃ ruta, ruta ≠ [] ∧ r = (Some ruta, None)) ∨ (∃ m, r = (None, Some m)).
Proof.
  intros Hr.
  destruct (decide (inicio ∉ dom grafo ∨ destino ∉ dom grafo)) as [Hno|Hsi].
  { rewrite bfs_sin_claves in Hr by done. injection Hr as <-. eauto. }
  assert (inicio ∈ dom grafo) as Hi
    by (destruct (decide (inicio ∈ dom grafo)); tauto).
  assert (destino ∈ dom grafo) as Hd
    by (destruct (decide (destino ∈ dom grafo)); tauto).
  destruct (bfs_con_claves grafo inicio destino Hi Hd)
    as (r' & Hr' & [(ruta & -> & Hc & _)|[-> _]]);
    rewrite Hr in Hr'; injection Hr' as ->; [left|right]; eauto.
  exists ruta. eauto using es_camino_no_vacio.
Qed.

(** X16. On any graph, for two non-empty names, the button shows a route
    exactly when the search returned one, and shows it with its number of
    edges: the test [if ruta] never takes a found route for a failure. *)
Theorem buscar_camino_ruta grafo inicio destino n ruta :
  inicio ≠ EmptyString → destino ≠ EmptyString →
  (buscar_camino grafo (Some inicio) (Some destino) = Some (VistaRuta n ruta)
   ↔ bfs_grados_de_separacion grafo inicio destino = Some (Some ruta, None)
     ∧ n = length ruta - 1).
Proof.
  intros Hi Hd. unfold buscar_camino.
  assert (verdadero (Some inicio) = true) as -> by (by destruct inicio).
  assert (verdadero (Some destino) = true) as -> by (by destruct destino).
  cbn [andb].
  destruct (bfs_grados_de_separacion grafo inicio destino) as [r|] eqn:Hr;
    cbn; [|by split; [|intros []]].
  destruct (bfs_resultado_forma _ _ _ _ Hr)
    as [(p & Hp & ->)|(m & ->)].
  - destruct p as [|x resto]; [done|]. split.
    + by intros [= <- <-].
    + by intros [[= <-] ->].
  - split; [done | by intros []].
Qed.

Lemma buscar_camino_ruta_witness :
  ("A" ≠ EmptyString ∧ "F" ≠ EmptyString) ∧
  (buscar_camino grafo_escenario (Some "A") (Some "F")
     = Some (VistaRuta 5 ["A"; "B"; "C"; "D"; "E"; "F"])
   ↔ bfs_grados_de_separacion grafo_escenario "A" "F"
       = Some (Some ["A"; "B"; "C"; "D"; "E"; "F"], None)
     ∧ 5 = length ["A"; "B"; "C"; "D"; "E"; "F"] - 1).
Proof.
  assert ("A" ≠ EmptyString) as HA by discriminate.
  assert ("F" ≠ EmptyString) as HF by discriminate.
  split; [repeat split; assumption|].
  exact (buscar_camino_ruta grafo_escenario "A" "F" 5 _ HA HF).
Defined.

(** ** The drawing *)

Lemma ruta_edges_lookup ruta i u v :
  ruta_edges ruta !! i = Some (u, v)
  ↔ ruta !! i = Some u ∧ ruta !! S i = Some v.
Proof.
  unfold ruta_edges. split.
  - intros (x & y & [= -> ->] & Hx & Hy)%lookup_zip_with_Some.
    by rewrite lookup_drop in Hy.
  - intros [Hu Hv]. apply lookup_zip_with_Some. exists u, v.
    by rewrite lookup_drop.
Qed.

Lemma elem_of_ruta_edges ruta u v :
  (u, v) ∈ ruta_edges ruta
  ↔ ∃ i, ruta !! i = Some u ∧ ruta !! S i = Some v.
Proof.
  rewrite list_elem_of_lookup. by setoid_rewrite ruta_edges_lookup.
Qed.

Lemma ruta_edges_length ruta : length (ruta_edges ruta) = length ruta - 1.
Proof.
  unfold ruta_edges. rewrite length_zip_with, length_drop. lia.
Qed.

Lemma ruta_edges_NoDup ruta : NoDup ruta → NoDup (ruta_edges ruta).
Proof.
  intros Hnd. apply NoDup_alt. intros i j [u v] Hi Hj.
  apply ruta_edges_lookup in Hi as [Hi _].
  apply ruta_edges_lookup in Hj as [Hj _].
  by eapply (proj1 (NoDup_alt ruta)).
Qed.

Lemma ruta_edges_sentido ruta u v :
  NoDup ruta → (u, v) ∈ ruta_edges ruta → (v, u) ∉ ruta_edges ruta.
Proof.
  intros Hnd (i & Hi & HSi)%elem_of_ruta_edges
    (j & Hj & HSj)%elem_of_ruta_edges.
  pose proof (proj1 (NoDup_alt ruta) Hnd) as Huniq.
  pose proof (Huniq _ _ _ Hi HSj). pose proof (Huniq _ _ _ HSi Hj). lia.
Qed.

(** X17. The pairs highlighted for a route the search returned are edges
    of the graph, as many as the degrees of separation shown, all
    different, and none is the reverse of another. *)
Theorem ruta_edges_bfs grafo inicio destino ruta :
  bfs_grados_de_separacion grafo inicio destino = Some (Some ruta, None) →
  length (ruta_edges ruta) = length ruta - 1 ∧
  NoDup (ruta_edges ruta) ∧
  ∀ u v, (u, v) ∈ ruta_edges ruta →
         arista grafo u v ∧ (v, u) ∉ ruta_edges ruta.
Proof.
  intros Hr. pose proof (bfs_ruta_NoDup _ _ _ _ Hr) as Hnd.
  destruct (bfs_ruta_es_camino _ _ _ _ Hr) as (_ & _ & (_ & _ & Hs) & _).
  split_and!.
  - apply ruta_edges_length.
  - by apply ruta_edges_NoDup.
  - intros u v Huv. split; [|by apply ruta_edges_sentido].
    apply elem_of_ruta_edges in Huv as (i & ? & ?). eauto.
Qed.

Lemma ruta_edges_bfs_witness :
  bfs_grados_de_separacion grafo_escenario "A" "H"
    = Some (Some ["A"; "G"; "H"], None) ∧
  length (ruta_edges ["A"; "G"; "H"]) = length ["A"; "G"; "H"] - 1 ∧
  NoDup (ruta_edges ["A"; "G"; "H"]) ∧
  ∀ u v, (u, v) ∈ ruta_edges ["A"; "G"; "H"] →
         arista grafo_escenario u v ∧ (v, u) ∉ ruta_edges ["A"; "G"; "H"].
Proof.
  assert (bfs_grados_de_separacion grafo_escenario "A" "H"
          = Some (Some ["A"; "G"; "H"], None)) as Hr
    by (vm_compute; reflexivity).
  split; [assumption|]. exact (ruta_edges_bfs _ _ _ _ Hr).
Defined.

(** X18. An edge is drawn in the colour of the route exactly when its two
    ends are consecutive nodes of the route, whichever of the two comes
    first in the edge as listed. *)
Theorem edge_colors_ruta ruta G_edges k u v :
  G_edges !! k = Some (u, v) →
  (edge_colors ruta G_edges !! k = Some COLOR_RUTA
   ↔ ∃ i, (ruta !! i = Some u ∧ ruta !! S i = Some v)
          ∨ (ruta !! i = Some v ∧ ruta !! S i = Some u)) ∧
  (edge_colors ruta G_edges !! k = Some COLOR_RUTA
   ∨ edge_colors ruta G_edges !! k = Some COLOR_ARISTA).
Proof.
  intros Hk. unfold edge_colors. rewrite list_lookup_fmap, Hk. cbn.
  case_decide as Hd; rewrite !elem_of_ruta_edges in Hd.
  - split; [|by left]. split; [intros _|done].
    destruct Hd as [(i & ?)|(i & ?)]; eauto.
  - split; [|by right]. split; [done|].
    intros (i & [?|?]); destruct Hd; eauto.
Qed.

Lemma edge_colors_ruta_witness :
  [("G", "A"); ("C", "D")] !! 0 = Some ("G", "A") ∧
  (edge_colors ["A"; "G"; "H"] [("G", "A"); ("C", "D")] !! 0
     = Some COLOR_RUTA
   ↔ ∃ i, (["A"; "G"; "H"] !! i = Some "G"
           ∧ ["A"; "G"; "H"] !! S i = Some "A")
          ∨ (["A"; "G"; "H"] !! i = Some "A"
             ∧ ["A"; "G"; "H"] !! S i = Some "G")) ∧
  (edge_colors ["A"; "G"; "H"] [("G", "A"); ("C", "D")] !! 0
     = Some COLOR_RUTA
   ∨ edge_colors ["A"; "G"; "H"] [("G", "A"); ("C", "D")] !! 0
     = Some COLOR_ARISTA).
Proof.
  assert ([("G", "A"); ("C", "D")] !! 0 = Some ("G", "A")) as Hk
    by reflexivity.
  split; [assumption|].
  exact (edge_colors_ruta ["A"; "G"; "H"] _ 0 "G" "A" Hk).
Defined.

(** ** Degrees of separation as a distance *)

Lemma camino_app grafo s t u p q :
  camino grafo s t p → camino grafo t u q →
  camino grafo s u (p ++ drop 1 q).
Proof.
  intros Hp. induction 1 as [|w v q Hq IH Ha].
  - simpl. by rewrite app_nil_r.
  - assert (q ≠ []) as Hne by eauto using camino_no_vacio.
    destruct q as [|x q]; [done|]. simpl in *.
    rewrite drop_0 in *. rewrite app_assoc.
    by apply camino_paso with w.
Qed.

(** X19. The degrees of separation obey the triangle inequality: with a
    route from [a] to [b] and one from [b] to [c], the search finds a route
    from [a] to [c] with no more edges than the two together. *)
Theorem bfs_triangular grafo a b c ruta1 ruta2 :
  bfs_grados_de_separacion grafo a b = Some (Some ruta1, None) →
  bfs_grados_de_separacion grafo b c = Some (Some ruta2, None) →
  ∃ ruta,
    bfs_grados_de_separacion grafo a c = Some (Some ruta, None) ∧
    length ruta - 1 ≤ (length ruta1 - 1) + (length ruta2 - 1).
Proof.
  intros H1 H2.
  destruct (bfs_ruta_es_camino _ _ _ _ H1) as (Ha & _ & Hc1 & _).
  destruct (bfs_ruta_es_camino _ _ _ _ H2) as (_ & Hc & Hc2 & _).
  assert (es_camino grafo a c (ruta1 ++ drop 1 ruta2)) as Hc3.
  { apply camino_es_camino. eapply camino_app; by apply es_camino_camino. }
  destruct (bfs_alcanzable grafo a c Ha Hc) as [ruta Hr]; [by eexists|].
  exists ruta. split; [done|].
  destruct (bfs_ruta_es_camino _ _ _ _ Hr) as (_ & _ & _ & Hmin).
  apply Hmin in Hc3. rewrite length_app, length_drop in Hc3.
  apply es_camino_no_vacio in Hc1. destruct ruta1; [done|].
  simpl in *. lia.
Qed.

Lemma bfs_triangular_witness :
  (bfs_grados_de_separacion grafo_escenario "A" "C"
     = Some (Some ["A"; "B"; "C"], None) ∧
   bfs_grados_de_separacion grafo_escenario "C" "H"
     = Some (Some ["C"; "G"; "H"], None)) ∧
  ∃ ruta,
    bfs_grados_de_separacion grafo_escenario "A" "H" = Some (Some ruta, None) ∧
    length ruta - 1
      ≤ (length ["A"; "B"; "C"] - 1) + (length ["C"; "G"; "H"] - 1).
Proof.
  assert (bfs_grados_de_separacion grafo_escenario "A" "C"
          = Some (Some ["A"; "B"; "C"], None)) as H1
    by (vm_compute; reflexivity).
  assert (bfs_grados_de_separacion grafo_escenario "C" "H"
          = Some (Some ["C"; "G"; "H"], None)) as H2
    by (vm_compute; reflexivity).
  split; [repeat split; assumption|].
  exact (bfs_triangular _ _ _ _ _ _ H1 H2).
Defined.
